(** * Cloudreve desktop: site validation, fetch wrapper, drive settings and
      the durable inventory schema

    A shallow embedding of the TypeScript utilities under [ui/src] and of the
    SQL migrations of the sync inventory, with the properties the
    specification states about them. *)

From Stdlib Require Import ZArith QArith Ascii String List Lia Bool.
From stdpp Require Import base option gmap strings list fin_maps pretty.

Local Open Scope string_scope.
Local Open Scope Z_scope.

(** ** JavaScript values used by the UI code

    Strings are sequences of code units; this development covers code units
    below 256, one [ascii] each.  Numbers are IEEE binary64 values: a finite
    double is represented by the rational it denotes, so both zeros are the
    rational [0] (they are indistinguishable to [<], [>] and [||]). *)

Module Js.

Inductive number : Type :=
| NaN
| NegInfinity
| Finite (q : Q)
| PosInfinity.

(** [x < y] on numbers: false as soon as one side is [NaN]. *)
Definition lt (x y : number) : bool :=
  match x, y with
  | NaN, _ | _, NaN => false
  | NegInfinity, NegInfinity => false
  | NegInfinity, _ => true
  | _, NegInfinity => false
  | PosInfinity, _ => false
  | Finite _, PosInfinity => true
  | Finite p, Finite q =>
      match (p ?= q)%Q with Lt => true | _ => false end
  end.

(** ToBoolean on a number: [NaN] and the zeros are falsy. *)
Definition truthy (x : number) : bool :=
  match x with
  | NaN => false
  | Finite q => negb (Qeq_bool q 0)
  | _ => true
  end.

Definition zero : number := Finite 0.

(** [v || 0] where [v] is a number or [undefined] ([None]). *)
Definition or_zero (v : option number) : number :=
  match v with
  | Some x => if truthy x then x else zero
  | None => zero
  end.

(** *** Rounding a rational to binary64 (nearest, ties to even) *)

Definition round_half_even (a : Z) (b : Z) : Z :=
  let fl := a / b in
  let r := a mod b in
  match 2 * r ?= b with
  | Lt => fl
  | Gt => fl + 1
  | Eq => if Z.even fl then fl else fl + 1
  end.

(** The binary exponent [e] with [2^e <= n/d < 2^(e+1)], for [n, d > 0]. *)
Definition binary_exponent (n d : Z) : Z :=
  let e0 := Z.log2 n - Z.log2 d in
  if e0 >=? 0
  then (if d * 2 ^ e0 <=? n then e0 else e0 - 1)
  else (if d <=? n * 2 ^ (- e0) then e0 else e0 - 1).

Definition round_pos (n d : Z) : number :=
  let e := binary_exponent n d in
  let p := Z.max (e - 52) (-1074) in
  let m := if p >=? 0 then round_half_even n (d * 2 ^ p)
           else round_half_even (n * 2 ^ (- p)) d in
  if p >=? 0
  then (if m * 2 ^ p >=? 2 ^ 1024 then PosInfinity
        else Finite (inject_Z (m * 2 ^ p)))
  else Finite (Qred (Qmake m (Z.to_pos (2 ^ (- p))))).

Definition neg (x : number) : number :=
  match x with
  | NaN => NaN
  | NegInfinity => PosInfinity
  | PosInfinity => NegInfinity
  | Finite q => Finite (- q)%Q
  end.

Definition round_binary64 (q : Q) : number :=
  match Qnum q with
  | Z0 => Finite 0
  | Zpos n => round_pos (Zpos n) (Zpos (Qden q))
  | Zneg n => neg (round_pos (Zpos n) (Zpos (Qden q)))
  end.

(** *** [Number(s)]: the StringToNumber conversion *)

Definition is_white_space (c : ascii) : bool :=
  let n := nat_of_ascii c in
  ((9 <=? n)%nat && (n <=? 13)%nat) || (n =? 32)%nat || (n =? 160)%nat.

Fixpoint trim_start (s : list ascii) : list ascii :=
  match s with
  | c :: s' => if is_white_space c then trim_start s' else s
  | [] => []
  end.

Definition trim (s : list ascii) : list ascii :=
  rev (trim_start (rev (trim_start s))).

Definition digit_value (radix : Z) (c : ascii) : option Z :=
  let n := Z.of_nat (nat_of_ascii c) in
  let v := if (48 <=? n) && (n <=? 57) then n - 48
           else if (97 <=? n) && (n <=? 122) then n - 87
           else if (65 <=? n) && (n <=? 90) then n - 55
           else radix in
  if v <? radix then Some v else None.

(** Value of a digit string in the given radix; [None] when a character is
    not a digit of that radix. *)
Fixpoint digits_from (radix : Z) (acc : Z) (s : list ascii) : option Z :=
  match s with
  | [] => Some acc
  | c :: s' =>
      match digit_value radix c with
      | Some v => digits_from radix (radix * acc + v) s'
      | None => None
      end
  end.

Definition digits (radix : Z) (s : list ascii) : option Z :=
  match s with
  | [] => None
  | _ => digits_from radix 0 s
  end.

(** Longest prefix of decimal digits, and the rest. *)
Fixpoint span_decimal (s : list ascii) : list ascii * list ascii :=
  match s with
  | c :: s' =>
      match digit_value 10 c with
      | Some _ => let (d, r) := span_decimal s' in (c :: d, r)
      | None => ([], s)
      end
  | [] => ([], [])
  end.

Definition decimal_value (s : list ascii) : Z :=
  default 0 (digits_from 10 0 s).

(** ExponentPart, or nothing: the power of ten it denotes. *)
Definition exponent_part (s : list ascii) : option Z :=
  match s with
  | [] => Some 0
  | c :: s' =>
      if (Ascii.eqb c "e" || Ascii.eqb c "E")%bool then
        match s' with
        | "+"%char :: ds => digits 10 ds
        | "-"%char :: ds => Z.opp <$> digits 10 ds
        | ds => digits 10 ds
        end
      else None
  end.

(** [mant * 10^k] as a double. *)
Definition scale10 (mant k : Z) : number :=
  if k >=? 0 then round_binary64 (inject_Z (mant * 10 ^ k))
  else round_binary64 (Qmake mant (Z.to_pos (10 ^ (- k)))).

(** StrUnsignedDecimalLiteral. *)
Definition unsigned_decimal (s : list ascii) : number :=
  if decide (s = list_ascii_of_string "Infinity") then PosInfinity
  else
    let (ip, r1) := span_decimal s in
    match r1 with
    | "."%char :: r2 =>
        let (fp, r3) := span_decimal r2 in
        match ip, fp with
        | [], [] => NaN
        | _, _ =>
            match exponent_part r3 with
            | Some e =>
                scale10 (decimal_value (ip ++ fp)) (e - Z.of_nat (length fp))
            | None => NaN
            end
        end
    | _ =>
        match ip with
        | [] => NaN
        | _ =>
            match exponent_part r1 with
            | Some e => scale10 (decimal_value ip) e
            | None => NaN
            end
        end
    end.

Definition of_integer (v : option Z) : number :=
  match v with
  | Some z => round_binary64 (inject_Z z)
  | None => NaN
  end.

(** StrNumericLiteral, after trimming. *)
Definition numeric_literal (s : list ascii) : number :=
  match s with
  | [] => zero
  | "0"%char :: c :: ds =>
      if (Ascii.eqb c "x" || Ascii.eqb c "X")%bool then of_integer (digits 16 ds)
      else if (Ascii.eqb c "o" || Ascii.eqb c "O")%bool then of_integer (digits 8 ds)
      else if (Ascii.eqb c "b" || Ascii.eqb c "B")%bool then of_integer (digits 2 ds)
      else unsigned_decimal s
  | "+"%char :: s' => unsigned_decimal s'
  | "-"%char :: s' => neg (unsigned_decimal s')
  | _ => unsigned_decimal s
  end.

Definition Number (s : string) : number :=
  numeric_literal (trim (list_ascii_of_string s)).

(** *** [s.split(".")] *)

Fixpoint split_dot (s : string) : list string :=
  match s with
  | EmptyString => [EmptyString]
  | String c s' =>
      if Ascii.eqb c "." then EmptyString :: split_dot s'
      else
        match split_dot s' with
        | h :: t => String c h :: t
        | [] => [String c EmptyString]
        end
  end.

(** *** [s.replace(/-pro$/, "")]: the match, if any, is the whole rest of
    the string at the position where it starts. *)

Fixpoint replace_pro_suffix (s : string) : string :=
  if String.eqb s "-pro" then EmptyString
  else
    match s with
    | EmptyString => EmptyString
    | String c s' => String c (replace_pro_suffix s')
    end.

(** *** Thrown values

    What a [catch (e)] clause can see: an [Error] object with its message, or
    any other value with its [String(e)] rendering. *)

Inductive exn : Type :=
| ErrorObject (message : string)
| OtherValue (rendering : string).

(** [e instanceof Error ? e.message : String(e)] *)
Definition exn_message (e : exn) : string :=
  match e with
  | ErrorObject m => m
  | OtherValue r => r
  end.

(** [s || fallback] on strings: the empty string is falsy. *)
Definition string_or (s fallback : string) : string :=
  if String.eqb s "" then fallback else s.

End Js.

(** ** [ui/src/utils/siteValidation.ts] *)

Module SiteValidation.

Definition MIN_VERSION : string := "4.12.0".

Record PingResponse : Type := {
  code : Z;
  data : string;
  msg : string;
}.

Inductive ValidationErrorType : Type :=
| httpError
| apiError
| versionTooLow
| connectionFailed.

Record ValidationError : Type := {
  type : ValidationErrorType;
  params : gmap string string;
}.

(** The [for] loop of [compareSemver]: [remaining] iterations are left,
    starting at index [i]. *)
Fixpoint compareSemver_loop (partsA partsB : list Js.number)
    (remaining : nat) (i : nat) : Z :=
  match remaining with
  | O => 0
  | S remaining' =>
      let numA := Js.or_zero (partsA !! i) in
      let numB := Js.or_zero (partsB !! i) in
      if Js.lt numA numB then -1
      else if Js.lt numB numA then 1
      else compareSemver_loop partsA partsB remaining' (S i)
  end.

Definition compareSemver (a b : string) : Z :=
  let partsA := map Js.Number (Js.split_dot a) in
  let partsB := map Js.Number (Js.split_dot b) in
  compareSemver_loop partsA partsB
    (Nat.max (length partsA) (length partsB)) 0.

(** The HTTP response as [validateSiteVersion] reads it; [json] is the
    outcome of [await response.json()], which rejects on a body that is not
    JSON. *)
Record Response : Type := {
  ok : bool;
  status : Z;
  json : Js.exn + PingResponse;
}.

(** The two effects of the function: [new URL(path, base)], which throws on a
    base that is not an absolute URL, and the HTTP plugin's [fetch]. *)
Record Env : Type := {
  URL : string -> string -> Js.exn + string;
  fetch : string -> Js.exn + Response;
}.

(** What the returned promise settles to. *)
Inductive thrown : Type :=
| Validation (e : ValidationError)
| Exception (e : Js.exn).

Inductive outcome : Type :=
| Resolved (version : string)
| Rejected (e : thrown).

Definition connection_failed (e : Js.exn) : outcome :=
  Rejected (Validation
    {| type := connectionFailed;
       params := {[ "message" := Js.exn_message e ]} |}).

Definition validateSiteVersion (env : Env) (siteUrl : string) : outcome :=
  match URL env "/api/v4/site/ping" siteUrl with
  | inl e => connection_failed e
  | inr url =>
      match fetch env url with
      | inl e => connection_failed e
      | inr response =>
          if negb (ok response) then
            Rejected (Validation
              {| type := httpError;
                 params := {[ "status" := pretty (status response) ]} |})
          else
            match json response with
            | inl e => Rejected (Exception e)
            | inr data_ =>
                if negb (code data_ =? 0) then
                  Rejected (Validation
                    {| type := apiError;
                       params :=
                         {[ "message" :=
                              Js.string_or (msg data_) "Unknown error" ]} |})
                else
                  let version := Js.replace_pro_suffix (data data_) in
                  if compareSemver version MIN_VERSION <? 0 then
                    Rejected (Validation
                      {| type := versionTooLow;
                         params :=
                           <[ "version" := version ]>
                             {[ "minVersion" := MIN_VERSION ]} |})
                  else Resolved version
            end
      end
  end.

(** [isValidationError] on a thrown value. *)
Definition isValidationError (e : thrown) : bool :=
  match e with
  | Validation _ => true
  | Exception _ => false
  end.

(** A site that answers the ping with status 200 and a body that is not
    JSON, such as the HTML page of some other web application. *)
Definition html_site : Env :=
  {| URL := fun path base => inr (base ++ path)%string;
     fetch := fun _ =>
       inr {| ok := true; status := 200;
              json := inl (Js.ErrorObject "Unexpected token '<'") |} |}.

(** A site that answers the ping with the given payload. *)
Definition site (status_ : Z) (payload : PingResponse) : Env :=
  {| URL := fun path base => inr (base ++ path)%string;
     fetch := fun _ =>
       inr {| ok := (200 <=? status_) && (status_ <=? 299);
              status := status_; json := inr payload |} |}.

End SiteValidation.

(** ** The [Headers] class of the Fetch API, as the wrapper uses it

    A header list keeps the entries in order and with the casing they were
    given; names compare without regard to ASCII case. *)

Module Headers.

Abbreviation t := (list (string * string)).

Definition lower (c : ascii) : ascii :=
  let n := nat_of_ascii c in
  if ((65 <=? n) && (n <=? 90))%nat then ascii_of_nat (n + 32) else c.

Fixpoint lowercase (s : string) : string :=
  match s with
  | EmptyString => EmptyString
  | String c s' => String (lower c) (lowercase s')
  end.

Definition name_eqb (a b : string) : bool :=
  String.eqb (lowercase a) (lowercase b).

Definition contains (h : t) (name : string) : bool :=
  existsb (fun e => name_eqb (fst e) name) h.

(** Token characters of RFC 9110. *)
Definition is_token_char (c : ascii) : bool :=
  let n := nat_of_ascii c in
  (((48 <=? n) && (n <=? 57)) || ((65 <=? n) && (n <=? 90))
   || ((97 <=? n) && (n <=? 122))
   || existsb (Nat.eqb n) [33; 35; 36; 37; 38; 39; 42; 43; 45; 46; 94; 95; 96; 124; 126])%nat.

Definition valid_name (name : string) : bool :=
  negb (String.eqb name "")
  && forallb is_token_char (list_ascii_of_string name).

Definition is_http_whitespace (c : ascii) : bool :=
  existsb (Nat.eqb (nat_of_ascii c)) [9; 10; 13; 32]%nat.

Fixpoint strip_start (s : list ascii) : list ascii :=
  match s with
  | c :: s' => if is_http_whitespace c then strip_start s' else s
  | [] => []
  end.

(** Normalisation of a header value: leading and trailing HTTP whitespace
    is removed. *)
Definition normalize (value : string) : string :=
  string_of_list_ascii
    (rev (strip_start (rev (strip_start (list_ascii_of_string value))))).

Definition valid_value (value : string) : bool :=
  forallb (fun c => negb (existsb (Nat.eqb (nat_of_ascii c)) [0; 10; 13]%nat))
    (list_ascii_of_string value).

Definition type_error : Js.exn := Js.ErrorObject "TypeError".

(** No HTTP whitespace anywhere in the string. *)
Definition whitespace_free (s : string) : bool :=
  forallb (fun c => negb (is_http_whitespace c)) (list_ascii_of_string s).

(** The name under which a new entry is stored: that of the first entry with
    the same name, if there is one. *)
Definition stored_name (h : t) (name : string) : string :=
  match find (fun e => name_eqb (fst e) name) h with
  | Some e => fst e
  | None => name
  end.

Definition append (h : t) (name value : string) : Js.exn + t :=
  let value := normalize value in
  if valid_name name && valid_value value
  then inr (h ++ [(stored_name h name, value)])%list
  else inl type_error.

(** Replace the value of the first entry called [name] and drop the others. *)
Fixpoint set_first (h : t) (name value : string) : t :=
  match h with
  | [] => []
  | e :: h' =>
      if name_eqb (fst e) name
      then (fst e, value)
             :: List.filter (fun e' => negb (name_eqb (fst e') name)) h'
      else e :: set_first h' name value
  end.

Definition set (h : t) (name value : string) : Js.exn + t :=
  let value := normalize value in
  if valid_name name && valid_value value
  then inr (if contains h name then set_first h name value
            else (h ++ [(name, value)])%list)
  else inl type_error.

Definition has (h : t) (name : string) : Js.exn + bool :=
  if valid_name name then inr (contains h name) else inl type_error.

Fixpoint join (values : list string) : string :=
  match values with
  | [] => EmptyString
  | [v] => v
  | v :: vs => v ++ ", " ++ join vs
  end.

(** [headers.get(name)]: the values of the entries called [name], joined. *)
Definition get (h : t) (name : string) : option string :=
  if contains h name
  then Some (join (map snd (List.filter (fun e => name_eqb (fst e) name) h)))
  else None.

(** [new Headers(init)] for a sequence of pairs (or the entries of a record
    or of another [Headers] object). *)
Fixpoint fill (h : t) (init : list (string * string)) : Js.exn + t :=
  match init with
  | [] => inr h
  | (name, value) :: init' =>
      match append h name value with
      | inl e => inl e
      | inr h' => fill h' init'
      end
  end.

End Headers.

(** ** [ui/src/utils/fetch.ts] *)

Module Fetch.

(** A property value of the [init] object: its [headers] in one of the forms
    of [HeadersInit], or any other option, kept as it is. *)
Inductive value : Type :=
| HeadersInit (entries : list (string * string))
| HeadersObject (h : Headers.t)
| Other (v : string).

(** [new Headers(init?.headers)] *)
Definition new_Headers (init : option (gmap string value)) : Js.exn + Headers.t :=
  match init ≫= (.!! "headers") with
  | None => inr []
  | Some (HeadersInit entries) => Headers.fill [] entries
  | Some (HeadersObject h) => Headers.fill [] h
  | Some (Other _) => inl Headers.type_error
  end.

(** [{ ...init, headers }] *)
Definition spread_with_headers (init : option (gmap string value))
    (headers : Headers.t) : gmap string value :=
  <[ "headers" := HeadersObject headers ]> (default ∅ init).

(** [getUserAgent]: the module-level cache is threaded through; [getVersion]
    is the outcome of the Tauri call, should it be made.  The test
    [if (userAgentCache)] fails on [null] and on the empty string. *)
Definition getUserAgent (getVersion : Js.exn + string)
    (userAgentCache : option string) : (Js.exn + string) * option string :=
  match userAgentCache ≫= (fun ua => if String.eqb ua "" then None else Some ua) with
  | Some ua => (inr ua, userAgentCache)
  | None =>
      match getVersion with
      | inl e => (inl e, userAgentCache)
      | inr version => let ua' := "cloudreve-desktop/" ++ version in
                       (inr ua', Some ua')
      end
  end.

(** The wrapper.  It ends in the call [tauriFetch(input, init')]: the result
    is either the exception raised before that call or the arguments of the
    call. *)
Definition fetch (getVersion : Js.exn + string) (input : string)
    (init : option (gmap string value)) (userAgentCache : option string)
  : (Js.exn + (string * gmap string value)) * option string :=
  match getUserAgent getVersion userAgentCache with
  | (inl e, cache) => (inl e, cache)
  | (inr userAgent, cache) =>
      match new_Headers init with
      | inl e => (inl e, cache)
      | inr headers =>
          match Headers.has headers "User-Agent" with
          | inl e => (inl e, cache)
          | inr true => (inr (input, spread_with_headers init headers), cache)
          | inr false =>
              match Headers.set headers "User-Agent" userAgent with
              | inl e => (inl e, cache)
              | inr headers' =>
                  (inr (input, spread_with_headers init headers'), cache)
              end
          end
      end
  end.

(** The cache is empty or holds the user agent of the application's
    version. *)
Definition cache_consistent (version : string) (cache : option string) : Prop :=
  cache = None \/ cache = Some ("cloudreve-desktop/" ++ version).

End Fetch.

(** ** Drive configuration *)

Module Drive.

(** Modelled from the spec: the [sync_direction] field of a DriveConfig,
    whose declaration is on the engine side; the two wire names are the ones
    the settings page exchanges with the [get_sync_direction] and
    [set_sync_direction] commands. *)
Inductive SyncDirection : Type :=
| TwoWay
| OneWayUpload.

Definition sync_direction_of_string (s : string) : option SyncDirection :=
  if String.eqb s "two_way" then Some TwoWay
  else if String.eqb s "one_way_upload" then Some OneWayUpload
  else None.

(** Modelled from the spec: the status of a drive. *)
Inductive DriveStatus : Type :=
| Active
| EventPushLost
| CredentialExpired.

(** Modelled from the spec: the DriveConfig entry of the data model; the
    credential is an opaque handle. *)
Record DriveConfig : Type := {
  id : string;
  name : string;
  instance_url : string;
  sync_path : string;
  remote_path : string;
  sync_direction : SyncDirection;
  enabled : bool;
  status : DriveStatus;
  credential : string;
}.

#[export] Instance SyncDirection_eq_dec : EqDecision SyncDirection.
Proof. solve_decision. Defined.

#[export] Instance DriveStatus_eq_dec : EqDecision DriveStatus.
Proof. solve_decision. Defined.

#[export] Instance DriveConfig_eq_dec : EqDecision DriveConfig.
Proof. solve_decision. Defined.

End Drive.

(** ** [ui/src/pages/settings/DrivesSection.tsx] *)

Module DrivesSection.

(** A call [invoke(command, { driveId, direction })]. *)
Record InvokeCall : Type := {
  command : string;
  driveId : string;
  direction : string;
}.

(** [syncDirections[driveId] || "two_way"] *)
Definition direction_or_default (syncDirections : gmap string string)
    (driveId : string) : string :=
  match syncDirections !! driveId with
  | Some d => Js.string_or d "two_way"
  | None => "two_way"
  end.

(** [handleSyncDirectionChange].  [syncDirections] is the state the handler
    closed over (the one the switch was rendered from), [prev] the state the
    queued updaters run on, and [invoke] the outcome of the backend call.
    The result is the state after the updaters and the calls made. *)
Definition handleSyncDirectionChange (syncDirections : gmap string string)
    (driveId : string) (checked : bool) (invoke : Js.exn + unit)
    (prev : gmap string string) : gmap string string * list InvokeCall :=
  let newDirection := if checked then "one_way_upload" else "two_way" in
  let previousDirection := direction_or_default syncDirections driveId in
  let prev := <[ driveId := newDirection ]> prev in
  let calls := [ {| command := "set_sync_direction";
                    driveId := driveId;
                    direction := newDirection |} ] in
  match invoke with
  | inr _ => (prev, calls)
  | inl _ => (<[ driveId := previousDirection ]> prev, calls)
  end.

(** The [checked] property of the drive's switch. *)
Definition switch_checked (syncDirections : gmap string string)
    (driveId : string) : bool :=
  bool_decide (syncDirections !! driveId = Some "one_way_upload").

End DrivesSection.

(** ** SQLite tables, as the inventory migrations declare them *)

Module Sql.

Inductive affinity : Type := TEXT | INTEGER.

Inductive value : Type :=
| Null
| Int (z : Z)
| Text (s : string).

#[export] Instance value_eq_dec : EqDecision value.
Proof. solve_decision. Defined.

Record column : Type := {
  col_name : string;
  col_affinity : affinity;
  col_not_null : bool;
  col_primary_key : bool;
  col_autoincrement : bool;
  col_unique : bool;
  col_default : option value;
}.

Record table : Type := {
  tbl_name : string;
  tbl_columns : list column;
}.

Record index : Type := {
  idx_name : string;
  idx_table : string;
  idx_columns : list string;
}.

(** A stored row gives every column a value; a row handed to [INSERT] may
    leave columns out. *)
Abbreviation row := (gmap string value).

Definition get (r : row) (c : string) : value := default Null (r !! c).

Definition is_null (v : value) : bool :=
  match v with Null => true | _ => false end.

(** The contents of a table, with the largest rowid handed out so far (the
    [sqlite_sequence] entry of an AUTOINCREMENT table). *)
Record state : Type := {
  rows : list row;
  sequence : Z;
}.

Definition empty : state := {| rows := []; sequence := 0 |}.

Definition must_be_unique (c : column) : bool :=
  col_primary_key c || col_unique c.

(** The non-NULL values of a column, in row order. *)
Definition column_values (c : string) (rs : list row) : list value :=
  List.filter (fun v => negb (is_null v)) (map (fun r => get r c) rs).

Definition not_null_ok (t : table) (r : row) : bool :=
  forallb (fun c => implb (col_not_null c) (negb (is_null (get r (col_name c)))))
    (tbl_columns t).

Definition unique_ok (t : table) (rs : list row) : bool :=
  forallb (fun c => implb (must_be_unique c)
                      (bool_decide (NoDup (column_values (col_name c) rs))))
    (tbl_columns t).

Definition constraints_ok (t : table) (rs : list row) : bool :=
  forallb (not_null_ok t) rs && unique_ok t rs.

Definition known_columns (t : table) (r : row) : bool :=
  bool_decide (dom r ⊆ list_to_set (col_name <$> tbl_columns t)).

(** The value stored for a column on [INSERT]: the one given, else a fresh
    rowid for the AUTOINCREMENT key, else the declared default, else NULL. *)
Definition stored_value (s : state) (r : row) (c : column) : value :=
  match r !! col_name c with
  | Some v =>
      if is_null v && col_autoincrement c then Int (sequence s + 1) else v
  | None =>
      if col_autoincrement c then Int (sequence s + 1)
      else default Null (col_default c)
  end.

Definition stored_row (t : table) (s : state) (r : row) : row :=
  list_to_map ((fun c => (col_name c, stored_value s r c)) <$> tbl_columns t).

Definition rowid_of (t : table) (r : row) : Z :=
  match find col_autoincrement (tbl_columns t) with
  | Some c => match get r (col_name c) with Int z => z | _ => 0 end
  | None => 0
  end.

(** [INSERT INTO t (...) VALUES (...)]: [None] is a constraint failure (or an
    unknown column), which leaves the table as it was. *)
Definition insert (t : table) (r : row) (s : state) : option state :=
  let r' := stored_row t s r in
  let rs := (rows s ++ [r'])%list in
  if known_columns t r && constraints_ok t rs
  then Some {| rows := rs; sequence := Z.max (sequence s) (rowid_of t r') |}
  else None.

(** [UPDATE t SET ... WHERE ...]: the assigned columns take their new values
    in every row the condition selects. *)
Definition update (t : table) (assignments : row) (where_ : row -> bool)
    (s : state) : option state :=
  let rs := (fun r => if where_ r then assignments ∪ r else r) <$> rows s in
  if known_columns t assignments && constraints_ok t rs
  then Some {| rows := rs; sequence := sequence s |}
  else None.

(** [DELETE FROM t WHERE ...] *)
Definition delete (where_ : row -> bool) (s : state) : state :=
  {| rows := List.filter (fun r => negb (where_ r)) (rows s);
     sequence := sequence s |}.

(** The states a table can be in: those the three statements produce from
    the empty table. *)
Inductive reachable (t : table) : state -> Prop :=
| reachable_empty : reachable t empty
| reachable_insert s r s' :
    reachable t s -> insert t r s = Some s' -> reachable t s'
| reachable_update s a w s' :
    reachable t s -> update t a w s = Some s' -> reachable t s'
| reachable_delete s w :
    reachable t s -> reachable t (delete w s).

End Sql.

(** ** The inventory migrations *)

Module Inventory.

Import Sql.

Definition text_not_null (name : string) : column :=
  {| col_name := name; col_affinity := TEXT; col_not_null := true;
     col_primary_key := false; col_autoincrement := false;
     col_unique := false; col_default := None |}.

Definition integer_not_null (name : string) : column :=
  {| col_name := name; col_affinity := INTEGER; col_not_null := true;
     col_primary_key := false; col_autoincrement := false;
     col_unique := false; col_default := None |}.

Definition text_nullable (name : string) : column :=
  {| col_name := name; col_affinity := TEXT; col_not_null := false;
     col_primary_key := false; col_autoincrement := false;
     col_unique := false; col_default := None |}.

Definition integer_nullable (name : string) : column :=
  {| col_name := name; col_affinity := INTEGER; col_not_null := false;
     col_primary_key := false; col_autoincrement := false;
     col_unique := false; col_default := None |}.

(** [0003_create_upload_sessions/up.sql] *)
Definition upload_sessions : table :=
  {| tbl_name := "upload_sessions";
     tbl_columns :=
       [ {| col_name := "id"; col_affinity := TEXT; col_not_null := true;
            col_primary_key := true; col_autoincrement := false;
            col_unique := false; col_default := None |};
         text_not_null "task_id";
         text_not_null "drive_id";
         text_not_null "local_path";
         text_not_null "remote_uri";
         integer_not_null "file_size";
         integer_not_null "chunk_size";
         text_not_null "policy_type";
         text_not_null "session_data";
         {| col_name := "chunk_progress"; col_affinity := TEXT;
            col_not_null := true; col_primary_key := false;
            col_autoincrement := false; col_unique := false;
            col_default := Some (Text "[]") |};
         text_nullable "encrypt_metadata";
         integer_not_null "expires_at";
         integer_not_null "created_at";
         integer_not_null "updated_at" ] |}.


(** [0004_create_drive_props/up.sql] *)
Definition drive_props : table :=
  {| tbl_name := "drive_props";
     tbl_columns :=
       [ {| col_name := "id"; col_affinity := INTEGER; col_not_null := true;
            col_primary_key := true; col_autoincrement := true;
            col_unique := false; col_default := None |};
         {| col_name := "drive_id"; col_affinity := TEXT;
            col_not_null := true; col_primary_key := false;
            col_autoincrement := false; col_unique := true;
            col_default := None |};
         text_nullable "capacity";
         integer_nullable "capacity_updated_at";
         text_nullable "storage_policies";
         integer_nullable "storage_policies_updated_at";
         text_nullable "user_settings";
         integer_nullable "user_settings_updated_at";
         integer_not_null "created_at";
         integer_not_null "updated_at" ] |}.

Definition drive_props_indexes : list index :=
  [ {| idx_name := "idx_drive_props_drive_id";
       idx_table := "drive_props"; idx_columns := ["drive_id"] |} ].

(** The three cached property groups of [drive_props]: the column holding the
    serialized property and the column holding its refresh time. *)
Definition property_groups : list (string * string) :=
  [ ("capacity", "capacity_updated_at");
    ("storage_policies", "storage_policies_updated_at");
    ("user_settings", "user_settings_updated_at") ].


(** A session row as the engine would insert it, with or without encryption
    metadata. *)
Definition sample_session (id path : string) (encrypt_metadata : value)
    (expires_at : Z) : row :=
  list_to_map
    [ ("id", Text id); ("task_id", Text "task-1"); ("drive_id", Text "drive-1");
      ("local_path", Text path); ("remote_uri", Text "cloudreve://my/a.bin");
      ("file_size", Int 4096); ("chunk_size", Int 1024);
      ("policy_type", Text "local"); ("session_data", Text "{}");
      ("encrypt_metadata", encrypt_metadata); ("expires_at", Int expires_at);
      ("created_at", Int 10); ("updated_at", Int 10) ].

(** The table after that row has been inserted into the empty table. *)
Definition one_session (encrypt_metadata : value) : state :=
  {| rows := (rows empty
              ++ [stored_row upload_sessions empty
                    (sample_session "s1" "/a.bin" encrypt_metadata 100)])%list;
     sequence :=
       Z.max (sequence empty)
         (rowid_of upload_sessions
            (stored_row upload_sessions empty
               (sample_session "s1" "/a.bin" encrypt_metadata 100))) |}.






(** A cached-properties row for a drive, nothing cached yet. *)
Definition sample_props (drive : string) : row :=
  list_to_map
    [ ("drive_id", Text drive); ("created_at", Int 10); ("updated_at", Int 10) ].

End Inventory.

(** ** Transfer Session Store *)

Module SessionStore.

Import Sql.

(** Modelled from the spec: the state of the Transfer Session Store, which
    is engine code that is not under [src/]: the [upload_sessions] table of
    the migration, and the clock. *)
Record t : Type := {
  now : Z;
  sessions : state;
}.

(** Modelled from the spec: a session is live until its [expires_at] has
    passed; past it, the session is abandoned. *)
Definition live (now : Z) (r : row) : bool :=
  match get r "expires_at" with
  | Int e => now <=? e
  | _ => false
  end.

Definition for_path (drive path : value) (r : row) : bool :=
  bool_decide (get r "drive_id" = drive) && bool_decide (get r "local_path" = path).

Definition find_live (now : Z) (drive path : value) (rs : list row) : option row :=
  find (fun r => for_path drive path r && live now r) rs.

Definition has_id (id : string) (r : row) : bool :=
  bool_decide (get r "id" = Text id).

(** Modelled from the spec: the operations of the Transfer Session Store,
    which is engine code that is not under [src/].  A session is created when
    a transfer begins chunking, unless a live session for the same drive and
    path exists, which is then resumed; a session past [expires_at] is
    abandoned and a fresh one is started.  It is updated after every
    acknowledged chunk and deleted on completion, on cancellation and when it
    is invalidated. *)
Inductive request : Type :=
| Begin (session : row)
| Acknowledge (id : string) (chunk_progress : string)
| Finish (id : string)
| CancelPath (drive path : string)
| Advance (later : Z).

(** Modelled from the spec: what each request does to the store; a statement
    the table refuses leaves the store as it was. *)
Definition step (q : request) (st : t) : t :=
  match q with
  | Begin session =>
      match find_live (now st) (get session "drive_id")
              (get session "local_path") (rows (sessions st)) with
      | Some _ => st
      | None =>
          match insert Inventory.upload_sessions session (sessions st) with
          | Some s' => {| now := now st; sessions := s' |}
          | None => st
          end
      end
  | Acknowledge id chunk_progress =>
      match update Inventory.upload_sessions
              (<[ "chunk_progress" := Text chunk_progress ]>
                 {[ "updated_at" := Int (now st) ]})
              (has_id id) (sessions st) with
      | Some s' => {| now := now st; sessions := s' |}
      | None => st
      end
  | Finish id =>
      {| now := now st; sessions := delete (has_id id) (sessions st) |}
  | CancelPath drive path =>
      {| now := now st;
         sessions := delete (for_path (Text drive) (Text path)) (sessions st) |}
  | Advance later =>
      {| now := Z.max (now st) later; sessions := sessions st |}
  end.

(** Modelled from the spec: the live sessions of one drive and path. *)
Definition live_for (now : Z) (drive path : value) (r : row) : bool :=
  for_path drive path r && live now r.

Definition one_live_each (st : t) : Prop :=
  forall drive path,
    (length (List.filter (live_for (now st) drive path) (rows (sessions st)))
     <= 1)%nat.

Inductive reachable : t -> Prop :=
| reachable_start t0 : reachable {| now := t0; sessions := empty |}
| reachable_step q st : reachable st -> reachable (step q st).

(** A transfer of [/a.bin] is begun. *)
Definition one_session_begun : t :=
  step (Begin (Inventory.sample_session "s1" "/a.bin" Null 100))
    {| now := 0; sessions := empty |}.

(** A transfer of [/a.bin] is begun, its session expires, and the transfer is
    begun again. *)
Definition expired_and_begun_again : t :=
  step (Begin (Inventory.sample_session "s2" "/a.bin" Null 300))
    (step (Advance 200)
       (step (Begin (Inventory.sample_session "s1" "/a.bin" Null 100))
          {| now := 0; sessions := empty |})).

End SessionStore.

(** ** Drive Registry ([DriveManager] in [ARCHITECTURE.md]) *)

Module DriveManager.

Import Drive.

(** The drive events of the [Event] enum of [ARCHITECTURE.md], and the other
    variants it lists. *)
Inductive Event : Type :=
| DriveAdded (drive_id name : string)
| DriveRemoved (drive_id : string)
| DriveUpdated (drive_id : string)
| SyncStarted (drive_id : string)
| SyncCompleted (drive_id : string) (files_synced : Z)
| SyncProgress (drive_id : string) (progress : Q) (current_file : string)
| SyncError (drive_id error : string)
| FileUploaded (drive_id file_path : string)
| FileDownloaded (drive_id file_path : string)
| ConnectionStatusChanged (connected : bool)
| Custom (event_name payload : string).

(** Modelled from the spec: the failures of the registry operations; a
    failed write of the configuration file is an internal error. *)
Inductive Error : Type :=
| AlreadyExists (id : string)
| NotFound (id : string)
| Internal (message : string).

(** Modelled from the spec: the registry, whose code ([drive/mod.rs]) is not
    under [src/]: the configurations in memory, the content of
    [drives.json], and the events broadcast so far. *)
Record t : Type := {
  drives : gmap string DriveConfig;
  persisted : gmap string DriveConfig;
  events : list Event;
}.

(** Modelled from the spec: [persist] writes the full configuration set;
    [write_ok] tells whether the file system accepts the write. *)
Definition persist (write_ok : bool) (st : t) : Error + t :=
  if write_ok
  then inr {| drives := drives st; persisted := drives st; events := events st |}
  else inl (Internal "persist").

Definition broadcast (e : Event) (st : t) : t :=
  {| drives := drives st; persisted := persisted st;
     events := (events st ++ [e])%list |}.

Definition with_drives (d : gmap string DriveConfig) (st : t) : t :=
  {| drives := d; persisted := persisted st; events := events st |}.

(** Modelled from the spec: [add_drive] refuses a duplicate id, else updates
    the set, persists it, broadcasts DriveAdded and returns the id. *)
Definition add_drive (config : DriveConfig) (write_ok : bool) (st : t)
  : (Error + string) * t :=
  match drives st !! id config with
  | Some _ => (inl (AlreadyExists (id config)), st)
  | None =>
      let st1 := with_drives (<[ id config := config ]> (drives st)) st in
      match persist write_ok st1 with
      | inl e => (inl e, st1)
      | inr st2 =>
          (inr (id config), broadcast (DriveAdded (id config) (name config)) st2)
      end
  end.

(** Modelled from the spec: [remove_drive] refuses an unknown id, else
    removes the entry, persists the set, broadcasts DriveRemoved and returns
    the removed configuration. *)
Definition remove_drive (i : string) (write_ok : bool) (st : t)
  : (Error + option DriveConfig) * t :=
  match drives st !! i with
  | None => (inl (NotFound i), st)
  | Some config =>
      let st1 := with_drives (base.delete i (drives st)) st in
      match persist write_ok st1 with
      | inl e => (inl e, st1)
      | inr st2 => (inr (Some config), broadcast (DriveRemoved i) st2)
      end
  end.

(** Modelled from the spec: [update_drive] refuses an unknown id, else
    replaces the entry, persists the set and broadcasts DriveUpdated. *)
Definition update_drive (i : string) (config : DriveConfig) (write_ok : bool)
    (st : t) : (Error + unit) * t :=
  match drives st !! i with
  | None => (inl (NotFound i), st)
  | Some _ =>
      let st1 := with_drives (<[ i := config ]> (drives st)) st in
      match persist write_ok st1 with
      | inl e => (inl e, st1)
      | inr st2 => (inr tt, broadcast (DriveUpdated i) st2)
      end
  end.

Definition get_drive (i : string) (st : t) : option DriveConfig :=
  drives st !! i.

Definition list_drives (st : t) : list DriveConfig :=
  map snd (map_to_list (drives st)).

(** Modelled from the spec: the three mutations of the registry, as one
    type. *)
Inductive mutation : Type :=
| Add (config : DriveConfig)
| Remove (i : string)
| Update (i : string) (config : DriveConfig).

(** Modelled from the spec: a mutation's outcome, that is whether it
    succeeded (and the error if not), and the registry it leaves. *)
Definition run (m : mutation) (write_ok : bool) (st : t) : option Error * t :=
  match m with
  | Add config =>
      let (r, st') := add_drive config write_ok st in
      (match r with inl e => Some e | inr _ => None end, st')
  | Remove i =>
      let (r, st') := remove_drive i write_ok st in
      (match r with inl e => Some e | inr _ => None end, st')
  | Update i config =>
      let (r, st') := update_drive i config write_ok st in
      (match r with inl e => Some e | inr _ => None end, st')
  end.

(** Modelled from the spec: the configuration set a mutation asks for, and
    the event that goes with it. *)
Definition requested (m : mutation) (d : gmap string DriveConfig)
  : gmap string DriveConfig :=
  match m with
  | Add config => <[ id config := config ]> d
  | Remove i => base.delete i d
  | Update i config => <[ i := config ]> d
  end.

Definition event_of (m : mutation) : Event :=
  match m with
  | Add config => DriveAdded (id config) (name config)
  | Remove i => DriveRemoved i
  | Update i _ => DriveUpdated i
  end.

(** A drive, and a registry that holds only it. *)
Definition sample_config : DriveConfig :=
  {| id := "drive-1"; name := "Work"; instance_url := "https://c.example";
     sync_path := "/home/u/Work"; remote_path := "cloudreve://my";
     sync_direction := TwoWay; enabled := true; status := Active;
     credential := "token" |}.

Definition sample_registry : t :=
  {| drives := {[ "drive-1" := sample_config ]};
     persisted := {[ "drive-1" := sample_config ]};
     events := [DriveAdded "drive-1" "Work"] |}.

Definition empty_registry : t :=
  {| drives := ∅; persisted := ∅; events := [] |}.

End DriveManager.


(** ** More of the JavaScript string methods the UI code calls *)

Module JsString.

(** [s.split(sep)] for a separator that is one code unit, or a character
    class: the pieces between the separators, at least one. *)
Fixpoint split_by (is_sep : ascii -> bool) (s : string) : list string :=
  match s with
  | EmptyString => [EmptyString]
  | String c s' =>
      if is_sep c then EmptyString :: split_by is_sep s'
      else
        match split_by is_sep s' with
        | h :: t => String c h :: t
        | [] => [String c EmptyString]
        end
  end.

(** [s.replace(/c/g, d)] for single code units [c] and [d]. *)
Fixpoint replace_all (c d : ascii) (s : string) : string :=
  match s with
  | EmptyString => EmptyString
  | String x s' => String (if Ascii.eqb x c then d else x) (replace_all c d s')
  end.

(** [s.includes(c)] for one code unit. *)
Fixpoint includes (c : ascii) (s : string) : bool :=
  match s with
  | EmptyString => false
  | String x s' => Ascii.eqb x c || includes c s'
  end.

(** [s.startsWith(p)] *)
Definition startsWith (p s : string) : bool := String.prefix p s.

(** [toLowerCase] on one code unit below 256: the ASCII capitals and the
    Latin-1 capitals (all of 0xC0-0xDE but the multiplication sign). *)
Definition lower (c : ascii) : ascii :=
  let n := nat_of_ascii c in
  if (((65 <=? n) && (n <=? 90))
      || ((192 <=? n) && (n <=? 222) && negb (n =? 215)))%nat
  then ascii_of_nat (n + 32) else c.

Fixpoint toLowerCase (s : string) : string :=
  match s with
  | EmptyString => EmptyString
  | String c s' => String (lower c) (toLowerCase s')
  end.

(** [s.trim()] *)
Definition trim (s : string) : string :=
  string_of_list_ascii (Js.trim (list_ascii_of_string s)).

(** [parts.join(sep)] *)
Fixpoint join (sep : string) (parts : list string) : string :=
  match parts with
  | [] => EmptyString
  | [p] => p
  | p :: ps => p ++ sep ++ join sep ps
  end.

(** [parts[parts.length - 1]]: [None] is [undefined]. *)
Definition last_element (parts : list string) : option string :=
  parts !! (length parts - 1)%nat.

(** The characters [encodeURIComponent] leaves alone. *)
Definition is_unreserved (c : ascii) : bool :=
  let n := nat_of_ascii c in
  (((48 <=? n) && (n <=? 57)) || ((65 <=? n) && (n <=? 90))
   || ((97 <=? n) && (n <=? 122))
   || existsb (Nat.eqb n) [45; 95; 46; 33; 126; 42; 39; 40; 41])%nat.

Definition hex_digit (n : nat) : ascii :=
  if (n <? 10)%nat then ascii_of_nat (48 + n) else ascii_of_nat (55 + n).

(** ["%XX"] for one byte. *)
Definition percent (byte : nat) (rest : string) : string :=
  String "%" (String (hex_digit (byte / 16)) (String (hex_digit (byte mod 16)) rest)).

(** [encodeURIComponent(s)]: every other code unit is written as the
    percent-escaped bytes of its UTF-8 encoding (one byte below 128, two
    bytes from 128 to 255). *)
Fixpoint encodeURIComponent (s : string) : string :=
  match s with
  | EmptyString => EmptyString
  | String c s' =>
      let n := nat_of_ascii c in
      if is_unreserved c then String c (encodeURIComponent s')
      else if (n <? 128)%nat then percent n (encodeURIComponent s')
      else percent (192 + n / 64) (percent (128 + n mod 64) (encodeURIComponent s'))
  end.

(** The characters that can come out of [encodeURIComponent]. *)
Definition uri_safe (c : ascii) : bool := is_unreserved c || Ascii.eqb c "%".

End JsString.

(** ** Path helpers of the popup and of the drives page *)

Module PathNames.

Definition is_slash_or_backslash (c : ascii) : bool :=
  Ascii.eqb c "/" || Ascii.eqb c "\".

(** [getFileName] of [Popup.tsx]:
    [path.split(/[/\\]/)], then [parts[parts.length - 1] || path]. *)
Definition getFileName (path : string) : string :=
  let parts := JsString.split_by is_slash_or_backslash path in
  match JsString.last_element parts with
  | Some p => Js.string_or p path
  | None => path
  end.

(** [getFolderName] of [DrivesSection.tsx]:
    [path.replace(/\\/g, "/").split("/")], then
    [parts[parts.length - 1] || path]. *)
Definition getFolderName (path : string) : string :=
  let parts :=
    JsString.split_by (Ascii.eqb "/") (JsString.replace_all "\" "/" path) in
  match JsString.last_element parts with
  | Some p => Js.string_or p path
  | None => path
  end.

End PathNames.


(** ** [Number::toString]: a number written in a template literal

    The decimal digits are the shortest that denote the number (read back,
    they round to it), the nearest to it where several of that length do;
    they are laid out plainly up to 21 integer digits and down to six
    leading zeros, and with an exponent otherwise. *)

Module NumberToString.

(** [q * 10^e] *)
Definition scaled (q : Q) (e : Z) : Q :=
  if 0 <=? e then (q * inject_Z (10 ^ e))%Q
  else (q / inject_Z (10 ^ (- e)))%Q.

Definition floor (q : Q) : Z := Qnum q / Zpos (Qden q).

(** The [n] with [10^(n-1) <= q < 10^n], for [q > 0]: a first guess from the
    binary exponent, then at most [fuel] steps up. *)
Fixpoint magnitude_from (fuel : nat) (n : Z) (q : Q) : Z :=
  match fuel with
  | O => n
  | S fuel' =>
      match (q ?= scaled 1 n)%Q with
      | Lt => n
      | _ => magnitude_from fuel' (n + 1) q
      end
  end.

Definition magnitude (q : Q) : Z :=
  let e2 := Js.binary_exponent (Qnum q) (Zpos (Qden q)) in
  magnitude_from 4 (e2 * 30103 / 100000 - 1) q.

(** Whether [s * 10^e], rounded to binary64, is the number [q]. *)
Definition denotes (q : Q) (s e : Z) : bool :=
  match Js.round_binary64 (scaled (inject_Z s) e) with
  | Js.Finite r => Qeq_bool r q
  | _ => false
  end.

(** The [k]-digit integer [s] (and the [n]) for which [s * 10^(n-k)] is the
    number [q], the nearest to [q] if there are two. *)
Definition digits_of_length (q : Q) (n0 k : Z) : option (Z * Z) :=
  let x := scaled q (k - n0) in
  let lo := floor x in
  let hi := lo + 1 in
  let lo_ok := denotes q lo (n0 - k) in
  let hi_ok := denotes q hi (n0 - k) in
  let pick (s : Z) := if s =? 10 ^ k then (10 ^ (k - 1), n0 + 1) else (s, n0) in
  match lo_ok, hi_ok with
  | false, false => None
  | true, false => Some (pick lo)
  | false, true => Some (pick hi)
  | true, true =>
      match (x - inject_Z lo ?= inject_Z hi - x)%Q with
      | Lt => Some (pick lo)
      | Gt => Some (pick hi)
      | Eq => Some (pick (if Z.even lo then lo else hi))
      end
  end.

(** The digits [s], the position [n] of the decimal point and the number
    [k] of digits: the least [k] from 1 on (17 digits denote any double). *)
Fixpoint shortest (fuel : nat) (q : Q) (n0 k : Z) : Z * Z * Z :=
  match fuel with
  | O => (floor (scaled q (k - n0)), n0, k)
  | S fuel' =>
      match digits_of_length q n0 k with
      | Some (s, n) => (s, n, k)
      | None => shortest fuel' q n0 (k + 1)
      end
  end.

Definition zeros (n : Z) : string :=
  string_of_list_ascii (repeat "0"%char (Z.to_nat n)).

Definition take (n : Z) (s : string) : string :=
  String.substring 0 (Z.to_nat n) s.

Definition drop (n : Z) (s : string) : string :=
  String.substring (Z.to_nat n) (String.length s - Z.to_nat n) s.

(** The layout, for [q > 0]. *)
Definition positive_to_string (q : Q) : string :=
  let '(s, n, k) := shortest 17 q (magnitude q) 1 in
  let digits := pretty s in
  if (k <=? n) && (n <=? 21) then digits ++ zeros (n - k)
  else if (0 <? n) && (n <=? 21) then take n digits ++ "." ++ drop n digits
  else if (-6 <? n) && (n <=? 0) then "0." ++ zeros (- n) ++ digits
  else
    let e := n - 1 in
    let exponent := (if 0 <=? e then "e+" else "e-") ++ pretty (Z.abs e) in
    if k =? 1 then digits ++ exponent
    else take 1 digits ++ "." ++ drop 1 digits ++ exponent.

Definition toString (x : Js.number) : string :=
  match x with
  | Js.NaN => "NaN"
  | Js.PosInfinity => "Infinity"
  | Js.NegInfinity => "-Infinity"
  | Js.Finite q =>
      match Qnum q with
      | Z0 => "0"
      | Zpos _ => positive_to_string q
      | Zneg _ => "-" ++ positive_to_string (- q)%Q
      end
  end.

End NumberToString.

(** ** JSON values, as [response.json()] delivers them *)

Module Json.

(** A parsed JSON text.  The members of an object are in the order of the
    text; where a name is repeated the last member is the property. *)
#[warnings="-register-all"] Inductive value : Type :=
| Null
| Bool (b : bool)
| Num (n : Js.number)
| Str (s : string)
| Arr (items : list value)
| Obj (members : list (string * value)).

Definition type_error : Js.exn := Js.ErrorObject "TypeError".

Fixpoint member (name : string) (members : list (string * value))
  : option value :=
  match members with
  | [] => None
  | (k, v) :: rest =>
      match member name rest with
      | Some w => Some w
      | None => if String.eqb k name then Some v else None
      end
  end.

(** [v.name] for a value [v] that came out of JSON ([None] is [undefined])
    and one of the names [icons], [sizes], [src] and [length], which no
    prototype of such a value defines but the [length] of strings and
    arrays.  Reading a property of [null] or [undefined] throws. *)
Definition read (v : option value) (name : string) : Js.exn + option value :=
  match v with
  | None | Some Null => inl type_error
  | Some (Obj members) => inr (member name members)
  | Some (Str s) =>
      inr (if String.eqb name "length"
           then Some (Num (Js.Finite (inject_Z (Z.of_nat (String.length s)))))
           else None)
  | Some (Arr items) =>
      inr (if String.eqb name "length"
           then Some (Num (Js.Finite (inject_Z (Z.of_nat (length items)))))
           else None)
  | Some (Bool _) | Some (Num _) => inr None
  end.

(** ToBoolean *)
Definition truthy (v : option value) : bool :=
  match v with
  | None | Some Null => false
  | Some (Bool b) => b
  | Some (Num n) => Js.truthy n
  | Some (Str s) => negb (String.eqb s "")
  | Some (Arr _) | Some (Obj _) => true
  end.

(** [v === 0] *)
Definition is_zero (v : option value) : bool :=
  match v with
  | Some (Num (Js.Finite q)) => Qeq_bool q 0
  | _ => false
  end.

(** What [for (const x of v)] goes through: the elements of an array, the
    characters of a string; nothing else that JSON delivers is iterable. *)
Definition iterate (v : option value) : Js.exn + list value :=
  match v with
  | Some (Arr items) => inr items
  | Some (Str s) =>
      inr (map (fun c => Str (String c EmptyString)) (list_ascii_of_string s))
  | _ => inl type_error
  end.

End Json.

(** ** [ui/src/utils/manifest.ts] *)

Module Manifest.

(** The body of the response is whatever JSON the site sends: the
    [Manifest] interface is not checked. *)
Record Response : Type := {
  ok : bool;
  status : Z;
  json : Js.exn + Json.value;
}.

(** The effects: [new URL(url, base)] for any value [url] ([None] is
    [undefined]), which throws when the two do not make an absolute URL, and
    the HTTP plugin's [fetch]. *)
Record Env : Type := {
  URL : option Json.value -> string -> Js.exn + string;
  fetch : string -> Js.exn + Response;
}.

(** [isValidUrl]: whether [new URL(url)] succeeds. *)
Definition isValidUrl (new_URL : string -> Js.exn + string) (url : string) : bool :=
  match new_URL url with
  | inr _ => true
  | inl _ => false
  end.

Definition is_digit (c : ascii) : bool :=
  match Js.digit_value 10 c with Some _ => true | None => false end.

(** Where a scan for [/(\d+)x(\d+)/] stands: before a match, in the digits of
    the width, after the [x], or in the digits of the height. *)
Inductive phase : Type :=
| Start
| Width (width : list ascii)
| AfterX (width : list ascii)
| Height (width height : list ascii).

Definition matched (width height : list ascii) : string :=
  string_of_list_ascii (width ++ "x"%char :: height).

(** [sizes.match(/(\d+)x(\d+)/g)]: the matches from left to right, none
    overlapping; the empty list stands for [null].  A run of digits that is
    not followed by [x] and a digit starts no match, and a match takes all the
    digits of its height. *)
Fixpoint scan (ph : phase) (s : list ascii) : list string :=
  match s with
  | [] =>
      match ph with
      | Height w h => [matched w h]
      | _ => []
      end
  | c :: s' =>
      match ph with
      | Start => if is_digit c then scan (Width [c]) s' else scan Start s'
      | Width w =>
          if is_digit c then scan (Width (w ++ [c])) s'
          else if Ascii.eqb c "x" then scan (AfterX w) s'
          else scan Start s'
      | AfterX w =>
          if is_digit c then scan (Height w [c]) s' else scan Start s'
      | Height w h =>
          if is_digit c then scan (Height w (h ++ [c])) s'
          else matched w h :: scan Start s'
      end
  end.

Definition match_sizes (sizes : string) : list string :=
  scan Start (list_ascii_of_string sizes).

(** [icon.sizes], as far as [.match] can be called on it: on a string.  An
    icon that is [null], has no [sizes], or has [sizes] that are not a string
    (no [match] method) makes the call throw. *)
Definition sizes_of (icon : Json.value) : Js.exn + string :=
  match Json.read (Some icon) "sizes" with
  | inl e => inl e
  | inr (Some (Json.Str sizes)) => inr sizes
  | inr _ => inl Json.type_error
  end.

(** [const [width] = sizeStr.split("x").map(Number)] *)
Definition width_of (sizeStr : string) : option Js.number :=
  head (map Js.Number (JsString.split_by (fun c => Ascii.eqb c "x") sizeStr)).

(** One turn of the inner loop: [if (width > bestSize) ...]. *)
Definition consider_size (icon : Json.value)
    (best : option Json.value * Js.number) (sizeStr : string)
  : option Json.value * Js.number :=
  match width_of sizeStr with
  | Some width => if Js.lt (snd best) width then (Some icon, width) else best
  | None => best
  end.

(** One turn of the outer loop. *)
Definition consider_icon (best : option Json.value * Js.number)
    (icon : Json.value) : Js.exn + option Json.value * Js.number :=
  match sizes_of icon with
  | inl e => inl e
  | inr sizes => inr (fold_left (consider_size icon) (match_sizes sizes) best)
  end.

(** The outer loop, from [bestIcon] and [bestSize] as they stand. *)
Fixpoint consider_icons (icons : list Json.value)
    (best : option Json.value * Js.number)
  : Js.exn + option Json.value * Js.number :=
  match icons with
  | [] => inr best
  | icon :: rest =>
      match consider_icon best icon with
      | inl e => inl e
      | inr best' => consider_icons rest best'
      end
  end.

(** [new URL(bestIcon.src, siteUrl).toString()] *)
Definition resolve_icon (env : Env) (siteUrl : string) (icon : Json.value)
  : Js.exn + option string :=
  match Json.read (Some icon) "src" with
  | inl e => inl e
  | inr src =>
      match URL env src siteUrl with
      | inl e => inl e
      | inr iconUrl => inr (Some iconUrl)
      end
  end.

(** The function from [const manifest = await response.json()] on. *)
Definition largest_icon (env : Env) (siteUrl : string) (manifest : Json.value)
  : Js.exn + option string :=
  match Json.read (Some manifest) "icons" with
  | inl e => inl e
  | inr icons =>
      if negb (Json.truthy icons) then inr None
      else
        match Json.read icons "length" with
        | inl e => inl e
        | inr len =>
            if Json.is_zero len then inr None
            else
              match Json.iterate icons with
              | inl e => inl e
              | inr items =>
                  match consider_icons items (None, Js.zero) with
                  | inl e => inl e
                  | inr (None, _) => inr None
                  | inr (Some bestIcon, _) => resolve_icon env siteUrl bestIcon
                  end
              end
        end
  end.

(** [fetchSiteIcon]: the promise resolves ([inr]) with the icon URL or
    [null], or rejects ([inl]). *)
Definition fetchSiteIcon (env : Env) (siteUrl : string) : Js.exn + option string :=
  match URL env (Some (Json.Str "/manifest.json")) siteUrl with
  | inl e => inl e
  | inr manifestUrl =>
      match fetch env manifestUrl with
      | inl e => inl e
      | inr response =>
          if negb (ok response) then
            inl (Js.ErrorObject
                   ("Failed to fetch manifest: "
                    ++ NumberToString.toString
                         (Js.Finite (inject_Z (status response)))))
          else
            match json response with
            | inl e => inl e
            | inr manifest => largest_icon env siteUrl manifest
            end
      end
  end.

(** The sizes the icons declare, as [fetchSiteIcon] goes through them. *)
Definition declared (icons : list Json.value) : list (Json.value * string) :=
  flat_map (fun icon =>
              match sizes_of icon with
              | inr sizes => map (pair icon) (match_sizes sizes)
              | inl _ => []
              end) icons.

Definition icon (sizes src : string) : Json.value :=
  Json.Obj [ ("src", Json.Str src); ("sizes", Json.Str sizes) ].

(** A manifest with a 512 pixel icon, a 1024 pixel icon and a scalable
    one. *)
Definition sample_icons : list Json.value :=
  [ icon "512x512" "/icons/512.png";
    icon "1024x1024 64x64" "/icons/1024.png";
    icon "any" "/icons/logo.svg" ].

(** A site that answers every request with the manifest given. *)
Definition site_with (manifest : Json.value) : Env :=
  {| URL := fun url base =>
       match url with
       | Some (Json.Str path) => inr (base ++ path)
       | _ => inl (Js.ErrorObject "Invalid URL")
       end;
     fetch := fun _ => inr {| ok := true; status := 200; json := inr manifest |} |}.

Definition sample_site : Env :=
  site_with (Json.Obj [ ("name", Json.Str "Cloudreve");
                        ("icons", Json.Arr sample_icons) ]).

(** The same manifest with one more icon, which has no [sizes]. *)
Definition site_with_unsized_icon : Env :=
  site_with (Json.Obj [ ("icons",
                         Json.Arr (sample_icons
                                   ++ [Json.Obj [("src", Json.Str "/favicon.ico")]])) ]).

End Manifest.


(** ** [ui/src/pages/AddDrive.tsx] *)

Module AddDrive.

Record PKCESession : Type := {
  codeVerifier : string;
  codeChallenge : string;
  siteUrl : string;
  siteVersion : string;
  siteIcon : option string;
}.

(** The [URL] object as [buildAuthorizeUrl] uses it: [new URL(url, base)],
    which may throw, and the string of a URL once its [search] has been
    assigned. *)
Record UrlApi : Type := {
  new_URL : string -> string -> Js.exn + string;
  with_search : string -> string -> string;
}.

(** [Object.entries(params)] *)
Definition authorize_params (codeChallenge : string) : list (string * string) :=
  [ ("response_type", "code");
    ("client_id", "393a1839-f52e-498e-9972-e77cc2241eee");
    ("scope", "profile email openid offline_access UserInfo.Write Workflow.Write Files.Write Shares.Write");
    ("redirect_uri", "/desktopCallback");
    ("code_challenge", codeChallenge);
    ("code_challenge_method", "S256") ].

Definition encode_pair (entry : string * string) : string :=
  JsString.encodeURIComponent (fst entry) ++ "="
  ++ JsString.encodeURIComponent (snd entry).

(** The value assigned to [url.search]. *)
Definition authorize_search (codeChallenge : string) : string :=
  JsString.join "&" (map encode_pair (authorize_params codeChallenge)).

Definition buildAuthorizeUrl (api : UrlApi) (siteUrl codeChallenge : string)
  : Js.exn + string :=
  match new_URL api "/session/authorize" siteUrl with
  | inl e => inl e
  | inr url => inr (with_search api url (authorize_search codeChallenge))
  end.

(** The state of the page: the React state, the [currentIconUrl] ref and the
    module-level [pkceSessionRef]. *)
Record State : Type := {
  siteUrl_input : string;
  loading : bool;
  error : string;
  snackbarOpen : bool;
  authorizeUrl : option string;
  currentIconUrl : option string;
  pkceSessionRef : option PKCESession;
}.

Definition getPKCESession (st : State) : option PKCESession := pkceSessionRef st.

Definition clearPKCESession (st : State) : State :=
  {| siteUrl_input := siteUrl_input st; loading := loading st;
     error := error st; snackbarOpen := snackbarOpen st;
     authorizeUrl := authorizeUrl st; currentIconUrl := currentIconUrl st;
     pkceSessionRef := None |}.

Definition handleBack (st : State) : State :=
  {| siteUrl_input := siteUrl_input st; loading := loading st;
     error := error st; snackbarOpen := snackbarOpen st;
     authorizeUrl := None; currentIconUrl := currentIconUrl st;
     pkceSessionRef := None |}.

(** What [handleSubmit] calls: the site, [generatePKCEPair], [openUrl], the
    [URL] object and the translation function [t]. *)
Record Effects : Type := {
  site : SiteValidation.Env;
  generatePKCEPair : Js.exn + (string * string);
  openUrl : string -> Js.exn + unit;
  url_api : UrlApi;
  t : string -> gmap string string -> string;
}.

Definition type_name (ty : SiteValidation.ValidationErrorType) : string :=
  match ty with
  | SiteValidation.httpError => "httpError"
  | SiteValidation.apiError => "apiError"
  | SiteValidation.versionTooLow => "versionTooLow"
  | SiteValidation.connectionFailed => "connectionFailed"
  end.

(** The message key and parameters the [catch] clause hands to [t]. *)
Definition error_message (e : SiteValidation.thrown) : string * gmap string string :=
  match e with
  | SiteValidation.Validation v =>
      ("addDrive.errors." ++ type_name (SiteValidation.type v),
       SiteValidation.params v)
  | SiteValidation.Exception x =>
      ("addDrive.errors.connectionFailed", {[ "message" := Js.exn_message x ]})
  end.

(** The [catch] clause: [setError(...); setSnackbarOpen(true)]. *)
Definition caught (fx : Effects) (e : SiteValidation.thrown) (st : State) : State :=
  {| siteUrl_input := siteUrl_input st; loading := loading st;
     error := t fx (fst (error_message e)) (snd (error_message e));
     snackbarOpen := true;
     authorizeUrl := authorizeUrl st; currentIconUrl := currentIconUrl st;
     pkceSessionRef := pkceSessionRef st |}.

Definition set_loading (b : bool) (st : State) : State :=
  {| siteUrl_input := siteUrl_input st; loading := b;
     error := error st; snackbarOpen := snackbarOpen st;
     authorizeUrl := authorizeUrl st; currentIconUrl := currentIconUrl st;
     pkceSessionRef := pkceSessionRef st |}.

Definition set_snackbarOpen (b : bool) (st : State) : State :=
  {| siteUrl_input := siteUrl_input st; loading := loading st;
     error := error st; snackbarOpen := b;
     authorizeUrl := authorizeUrl st; currentIconUrl := currentIconUrl st;
     pkceSessionRef := pkceSessionRef st |}.

Definition set_authorizeUrl (u : option string) (st : State) : State :=
  {| siteUrl_input := siteUrl_input st; loading := loading st;
     error := error st; snackbarOpen := snackbarOpen st;
     authorizeUrl := u; currentIconUrl := currentIconUrl st;
     pkceSessionRef := pkceSessionRef st |}.

Definition set_pkceSessionRef (p : option PKCESession) (st : State) : State :=
  {| siteUrl_input := siteUrl_input st; loading := loading st;
     error := error st; snackbarOpen := snackbarOpen st;
     authorizeUrl := authorizeUrl st; currentIconUrl := currentIconUrl st;
     pkceSessionRef := p |}.

(** The [try] block of [handleSubmit], with its [catch]. *)
Definition submit_attempt (fx : Effects) (st : State) : State :=
  match SiteValidation.validateSiteVersion (site fx) (siteUrl_input st) with
  | SiteValidation.Rejected e => caught fx e st
  | SiteValidation.Resolved version =>
      match generatePKCEPair fx with
      | inl x => caught fx (SiteValidation.Exception x) st
      | inr (verifier, challenge) =>
          let st1 :=
            set_pkceSessionRef
              (Some {| codeVerifier := verifier; codeChallenge := challenge;
                       siteUrl := JsString.trim (siteUrl_input st);
                       siteVersion := version;
                       siteIcon := currentIconUrl st |}) st in
          match buildAuthorizeUrl (url_api fx)
                  (JsString.trim (siteUrl_input st)) challenge with
          | inl x => caught fx (SiteValidation.Exception x) st1
          | inr authUrl =>
              let st2 := set_authorizeUrl (Some authUrl) st1 in
              match openUrl fx authUrl with
              | inl x => caught fx (SiteValidation.Exception x) st2
              | inr _ => st2
              end
          end
      end
  end.

(** [handleSubmit]: [setLoading(true); setSnackbarOpen(false)], the [try]
    block, and [finally setLoading(false)]. *)
Definition handleSubmit (fx : Effects) (st : State) : State :=
  set_loading false
    (submit_attempt fx (set_snackbarOpen false (set_loading true st))).

(** Effects for a given site where the rest goes well: the translation
    function answers with the key itself. *)
Definition sample_effects (s : SiteValidation.Env) : Effects :=
  {| site := s;
     generatePKCEPair := inr ("verifier", "challenge");
     openUrl := fun _ => inr tt;
     url_api := {| new_URL := fun url base => inr (base ++ url);
                   with_search := fun url search => url ++ "?" ++ search |};
     t := fun key _ => key |}.

Definition initial_state (input : string) : State :=
  {| siteUrl_input := input; loading := false; error := "";
     snackbarOpen := false; authorizeUrl := None; currentIconUrl := None;
     pkceSessionRef := None |}.

End AddDrive.


(** ** The drive list of [DrivesSection.tsx] *)

Module DrivesPage.

Record Capacity : Type := {
  total : Z;
  used : Z;
  label : string;
}.

Record DriveInfoResponse : Type := {
  id : string;
  name : string;
  instance_url : string;
  sync_path : string;
  icon_path : option string;
  raw_icon_path : option string;
  remote_path : string;
  enabled : bool;
  user_id : string;
  status : string;
  capacity : option Capacity;
}.

(** The page: the React state and the [isFetchingRef] ref.
    [syncDirections] is a plain object: the map holds its own properties. *)
Record State : Type := {
  drives : list DriveInfoResponse;
  loading : bool;
  isFetchingRef : bool;
  syncDirections : gmap string string;
}.

(** The two commands [fetchDrives] invokes. *)
Record Backend : Type := {
  get_drives_info : Js.exn + list DriveInfoResponse;
  get_sync_direction : string -> Js.exn + string;
}.

(** One of the [directionPromises]: the drive's direction, or ["two_way"]
    when the command fails. *)
Definition direction_promise (b : Backend) (drive : DriveInfoResponse)
  : string * string :=
  match get_sync_direction b (id drive) with
  | inr direction => (id drive, direction)
  | inl _ => (id drive, "two_way")
  end.

(** [directions[id] = direction] on the plain object [directions]: the
    assignment makes or overwrites an own property, except for the name
    [__proto__], which is the accessor of [Object.prototype]: its setter
    ignores a value that is a string, and the object is left as it was. *)
Definition assign (directions : gmap string string) (r : string * string)
  : gmap string string :=
  if String.eqb (fst r) "__proto__" then directions
  else <[ fst r := snd r ]> directions.

(** [for (const { id, direction } of directionResults) directions[id] = direction] *)
Definition collect (directionResults : list (string * string))
  : gmap string string :=
  fold_left assign directionResults ∅.

Definition fetchDrives (b : Backend) (st : State) : State :=
  if isFetchingRef st then st
  else
    match get_drives_info b with
    | inr result =>
        {| drives := result; loading := false; isFetchingRef := false;
           syncDirections := collect (map (direction_promise b) result) |}
    | inl _ =>
        {| drives := drives st; loading := false; isFetchingRef := false;
           syncDirections := syncDirections st |}
    end.

(** A backend with two drives, where the direction of the second cannot be
    read. *)
Definition sample_drive (i : string) : DriveInfoResponse :=
  {| id := i; name := "Work"; instance_url := "https://c.example";
     sync_path := "/home/me/Work"; icon_path := None; raw_icon_path := None;
     remote_path := "cloudreve://my"; enabled := true; user_id := "u1";
     status := "active"; capacity := None |}.

Definition sample_backend : Backend :=
  {| get_drives_info := inr [sample_drive "d1"; sample_drive "d2"];
     get_sync_direction := fun i =>
       if String.eqb i "d1" then inr "one_way_upload"
       else inl (Js.OtherValue "no such drive") |}.

Definition initial_state : State :=
  {| drives := []; loading := true; isFetchingRef := false;
     syncDirections := ∅ |}.

End DrivesPage.


(** ** The file icons of the popup ([FileIcon]) *)

Module FileIcon.

(** [cacheKey]: [path.split(".").pop()?.toLowerCase() || "unknown"], then
    [`${ext}_${size}`], where [size] is a number. *)
Definition cacheKey (path : string) (size : Js.number) : string :=
  let ext :=
    match last (Js.split_dot path) with
    | Some e => Js.string_or (JsString.toLowerCase e) "unknown"
    | None => "unknown"
    end in
  ext ++ "_" ++ NumberToString.toString size.

Record FileIconResponse : Type := {
  data : string;
  width : Z;
  height : Z;
}.

(** The state of one [FileIcon] component. *)
Record Component : Type := {
  iconUrl : option string;
  loading : bool;
  error : bool;
}.

(** What [fetchIcon] depends on: the [get_file_icon] command,
    [rgbaToDataUrl] (which answers [""] without a canvas context and throws
    on data that is not base64), and whether the component is still mounted
    when the command has answered. *)
Record Effects : Type := {
  get_file_icon : string -> Js.exn + FileIconResponse;
  rgbaToDataUrl : FileIconResponse -> Js.exn + string;
  mounted : bool;
}.

(** [iconCache.get(cacheKey)], taken by [if (cached)]: a missing entry and an
    empty string both fail the test. *)
Definition cached (iconCache : gmap string string) (key : string) : option string :=
  iconCache !! key ≫= (fun url => if String.eqb url "" then None else Some url).

Definition failed (fx : Effects) (c : Component) : Component :=
  if mounted fx
  then {| iconUrl := iconUrl c; loading := false; error := true |}
  else c.

(** [fetchIcon]: the component, the module-level cache, and the paths for
    which [get_file_icon] was invoked. *)
Definition fetchIcon (fx : Effects) (path : string) (size : Js.number)
    (iconCache : gmap string string) (c : Component)
  : Component * gmap string string * list string :=
  match cached iconCache (cacheKey path size) with
  | Some url =>
      ({| iconUrl := Some url; loading := false; error := error c |},
       iconCache, [])
  | None =>
      match get_file_icon fx path with
      | inl _ => (failed fx c, iconCache, [path])
      | inr response =>
          if negb (mounted fx) then (c, iconCache, [path])
          else
            match rgbaToDataUrl fx response with
            | inl _ => (failed fx c, iconCache, [path])
            | inr dataUrl =>
                if String.eqb dataUrl "" then
                  ({| iconUrl := iconUrl c; loading := false; error := true |},
                   iconCache, [path])
                else
                  ({| iconUrl := Some dataUrl; loading := false;
                      error := error c |},
                   <[ cacheKey path size := dataUrl ]> iconCache, [path])
            end
      end
  end.

(** Effects where everything works. *)
Definition sample_effects : Effects :=
  {| get_file_icon := fun _ => inr {| data := "AAAA"; width := 1; height := 1 |};
     rgbaToDataUrl := fun _ => inr "data:image/png;base64,iVBORw0KGgo=";
     mounted := true |}.

Definition unloaded : Component :=
  {| iconUrl := None; loading := true; error := false |}.

End FileIcon.

(** * Properties *)

(** ** [compareSemver] *)

Section CompareSemver.

Import SiteValidation.

Lemma lt_irrefl (x : Js.number) : Js.lt x x = false.
Proof.
  destruct x as [| |q|]; simpl; try reflexivity.
  assert (H : (q ?= q)%Q = Eq) by (apply Qeq_alt; reflexivity).
  now rewrite H.
Qed.

Lemma lt_asym (x y : Js.number) : Js.lt x y = true -> Js.lt y x = false.
Proof.
  destruct x as [| |p|], y as [| |q|]; simpl; try congruence.
  rewrite <- (Qcompare_antisym p q).
  destruct (p ?= q)%Q; simpl; congruence.
Qed.

Lemma loop_range pa pb n i :
  compareSemver_loop pa pb n i = -1
  \/ compareSemver_loop pa pb n i = 0
  \/ compareSemver_loop pa pb n i = 1.
Proof.
  revert i; induction n as [|n IH]; intros i; simpl.
  - auto.
  - destruct (Js.lt _ _); [auto|].
    destruct (Js.lt _ _); [auto|]. apply IH.
Qed.

Lemma loop_same pa n i : compareSemver_loop pa pa n i = 0.
Proof.
  revert i; induction n as [|n IH]; intros i; simpl; [reflexivity|].
  rewrite lt_irrefl. apply IH.
Qed.

Lemma loop_swap pa pb n i :
  compareSemver_loop pa pb n i = - compareSemver_loop pb pa n i.
Proof.
  revert i; induction n as [|n IH]; intros i; simpl; [reflexivity|].
  destruct (Js.lt (Js.or_zero (pa !! i)) (Js.or_zero (pb !! i))) eqn:Hab.
  - rewrite (lt_asym _ _ Hab). reflexivity.
  - destruct (Js.lt (Js.or_zero (pb !! i)) (Js.or_zero (pa !! i))); [reflexivity|].
    apply IH.
Qed.

(** The loop reads its lists only through [parts[i] || 0]. *)
Lemma loop_ext pa pa' pb pb' n i :
  (forall j, Js.or_zero (pa !! j) = Js.or_zero (pa' !! j)) ->
  (forall j, Js.or_zero (pb !! j) = Js.or_zero (pb' !! j)) ->
  compareSemver_loop pa pb n i = compareSemver_loop pa' pb' n i.
Proof.
  intros Ha Hb. revert i; induction n as [|n IH]; intros i; simpl; [reflexivity|].
  rewrite Ha, Hb, IH. reflexivity.
Qed.

(** Iterations past the components of both versions change nothing. *)
Lemma loop_extra pa pb n m i :
  (forall j, (i + n <= j)%nat -> Js.or_zero (pa !! j) = Js.zero) ->
  (forall j, (i + n <= j)%nat -> Js.or_zero (pb !! j) = Js.zero) ->
  compareSemver_loop pa pb (n + m) i = compareSemver_loop pa pb n i.
Proof.
  revert i; induction n as [|n IH]; intros i Ha Hb.
  - simpl. revert i Ha Hb. induction m as [|m IHm]; intros i Ha Hb; simpl.
    + reflexivity.
    + rewrite Ha, Hb by lia. simpl. apply IHm; intros j Hj; [apply Ha|apply Hb]; lia.
  - simpl. rewrite IH; [reflexivity| |]; intros j Hj; [apply Ha|apply Hb]; lia.
Qed.

Lemma or_zero_past (l : list Js.number) j :
  (length l <= j)%nat -> Js.or_zero (l !! j) = Js.zero.
Proof. intros H. rewrite (lookup_ge_None_2 l j H). reflexivity. Qed.

Lemma or_zero_padded (l : list Js.number) j :
  Js.or_zero ((l ++ [Js.Number "0"])%list !! j) = Js.or_zero (l !! j).
Proof.
  destruct (decide (j < length l)%nat) as [Hlt|Hge].
  - now rewrite lookup_app_l.
  - rewrite (or_zero_past l j) by lia.
    rewrite lookup_app_r by lia.
    destruct (j - length l)%nat as [|k]; reflexivity.
Qed.

Lemma split_dot_not_nil a : Js.split_dot a <> [].
Proof.
  destruct a as [|c a]; simpl; [discriminate|].
  destruct (Ascii.eqb c "."); [discriminate|].
  destruct (Js.split_dot a); discriminate.
Qed.

Lemma split_dot_padded a :
  Js.split_dot (a ++ ".0") = (Js.split_dot a ++ ["0"])%list.
Proof.
  induction a as [|c a IH]; simpl; [reflexivity|].
  destruct (Ascii.eqb c "."); rewrite IH; [reflexivity|].
  pose proof (split_dot_not_nil a) as Hne.
  destruct (Js.split_dot a); [congruence|reflexivity].
Qed.

Lemma loop_padded_left pa pb :
  compareSemver_loop (pa ++ [Js.Number "0"])%list pb
    (Nat.max (length (pa ++ [Js.Number "0"])%list) (length pb)) 0
  = compareSemver_loop pa pb (Nat.max (length pa) (length pb)) 0.
Proof.
  rewrite (loop_ext _ pa pb pb _ 0 (or_zero_padded pa) (fun _ => eq_refl)).
  rewrite length_app. simpl.
  replace (Nat.max (length pa + 1) (length pb))
    with (Nat.max (length pa) (length pb)
          + (Nat.max (length pa + 1) (length pb)
             - Nat.max (length pa) (length pb)))%nat by lia.
  apply loop_extra; intros j Hj; apply or_zero_past; lia.
Qed.

Lemma compareSemver_padded_left a b :
  compareSemver (a ++ ".0") b = compareSemver a b.
Proof.
  unfold compareSemver. rewrite split_dot_padded, map_app. simpl map.
  apply loop_padded_left.
Qed.

Example Number_examples :
  Js.Number "4" = Js.Finite 4
  /\ Js.Number " 12 " = Js.Finite 12
  /\ Js.Number "" = Js.Finite 0
  /\ Js.Number "0x1F" = Js.Finite 31
  /\ Js.Number "1e3" = Js.Finite 1000
  /\ Js.Number "-5" = Js.Finite (-5)
  /\ Js.Number "2.5" = Js.Finite (5 # 2)
  /\ Js.Number "0.1" = Js.Finite (3602879701896397 # 36028797018963968)
  /\ Js.Number "9007199254740993" = Js.Finite 9007199254740992
  /\ Js.Number "1e400" = Js.PosInfinity
  /\ Js.Number "-Infinity" = Js.NegInfinity
  /\ Js.Number "12abc" = Js.NaN
  /\ Js.Number "0-beta" = Js.NaN
  /\ Js.Number "v5" = Js.NaN.
Proof. repeat split; vm_compute; reflexivity. Qed.

Example compareSemver_examples :
  compareSemver "4.11.9" "4.12.0" = -1
  /\ compareSemver "4.12.0" "4.12.0" = 0
  /\ compareSemver "4.12.1" "4.12.0" = 1
  /\ compareSemver "4.9" "4.12" = -1
  /\ compareSemver "5" "4.12.0" = 1
  /\ compareSemver "4.12.0.1" "4.12.0" = 1
  /\ compareSemver "4.12.0-beta" "4.12.0" = 0
  /\ compareSemver "" "0.0" = 0.
Proof. repeat split; vm_compute; reflexivity. Qed.

Lemma compareSemver_swap a b : compareSemver a b = - compareSemver b a.
Proof. unfold compareSemver. rewrite Nat.max_comm. apply loop_swap. Qed.

(** C9: [compareSemver] returns -1, 0 or 1; a version compares equal to
    itself; swapping the arguments negates the result; and a missing
    component counts as 0: appending [".0"] to either version never changes
    the result, so that ["4.12"] and ["4.12.0"] compare equal. *)
Theorem compareSemver_sign_reflexive_antisymmetric :
  (forall a b, compareSemver a b = -1 \/ compareSemver a b = 0
               \/ compareSemver a b = 1)
  /\ (forall a, compareSemver a a = 0)
  /\ (forall a b, compareSemver a b = - compareSemver b a)
  /\ (forall a b, compareSemver (a ++ ".0") b = compareSemver a b
                  /\ compareSemver a (b ++ ".0") = compareSemver a b)
  /\ compareSemver "4.12" "4.12.0" = 0.
Proof.
  split; [|split; [|split; [|split]]].
  - intros a b. apply loop_range.
  - intros a. apply loop_same.
  - apply compareSemver_swap.
  - intros a b. split; [apply compareSemver_padded_left|].
    rewrite (compareSemver_swap a (b ++ ".0")), compareSemver_padded_left.
    symmetry. apply compareSemver_swap.
  - vm_compute. reflexivity.
Qed.

End CompareSemver.

(** ** [validateSiteVersion] *)

Section ValidateSiteVersion.

Import SiteValidation.

Lemma eqb_pro_length s : String.eqb s "-pro" = true -> String.length s = 4%nat.
Proof. intros H. apply String.eqb_eq in H. now subst. Qed.

Lemma string_length_append (s t : string) :
  String.length (s ++ t) = (String.length s + String.length t)%nat.
Proof. induction s as [|c s IH]; simpl; [reflexivity|now rewrite IH]. Qed.

(** A trailing ["-pro"] is removed, once. *)
Lemma replace_pro_suffix_strips s : Js.replace_pro_suffix (s ++ "-pro") = s.
Proof.
  induction s as [|c s IH]; [reflexivity|].
  change (String c s ++ "-pro") with (String c (s ++ "-pro")).
  change (Js.replace_pro_suffix (String c (s ++ "-pro")))
    with (if String.eqb (String c (s ++ "-pro")) "-pro" then EmptyString
          else String c (Js.replace_pro_suffix (s ++ "-pro"))).
  destruct (String.eqb (String c (s ++ "-pro")) "-pro") eqn:E.
  - apply eqb_pro_length in E. cbn [String.length] in E.
    rewrite string_length_append in E. simpl in E. lia.
  - now rewrite IH.
Qed.

Example replace_pro_suffix_examples :
  Js.replace_pro_suffix "4.12.0-pro" = "4.12.0"
  /\ Js.replace_pro_suffix "4.12.0" = "4.12.0"
  /\ Js.replace_pro_suffix "4.12.0-pro-pro" = "4.12.0-pro"
  /\ Js.replace_pro_suffix "4.12.0-prod" = "4.12.0-prod".
Proof. repeat split; reflexivity. Qed.

(** The promise resolves exactly when the four checks pass, and then with
    the stripped version. *)
Lemma validateSiteVersion_resolves_iff env siteUrl v :
  validateSiteVersion env siteUrl = Resolved v
  <-> exists url response payload,
        URL env "/api/v4/site/ping" siteUrl = inr url
        /\ fetch env url = inr response
        /\ ok response = true
        /\ json response = inr payload
        /\ code payload = 0
        /\ v = Js.replace_pro_suffix (data payload)
        /\ 0 <= compareSemver v MIN_VERSION.
Proof.
  unfold validateSiteVersion, connection_failed. split.
  - destruct (URL env _ siteUrl) as [e|url] eqn:Hurl; [discriminate|].
    destruct (fetch env url) as [e|response] eqn:Hfetch; [discriminate|].
    destruct (ok response) eqn:Hok; simpl; [|discriminate].
    destruct (json response) as [e|payload] eqn:Hjson; [discriminate|].
    destruct (code payload =? 0) eqn:Hcode; simpl; [|discriminate].
    destruct (compareSemver _ MIN_VERSION <? 0) eqn:Hcmp; [discriminate|].
    intros [= <-]. exists url, response, payload.
    apply Z.eqb_eq in Hcode. apply Z.ltb_ge in Hcmp.
    repeat split; assumption.
  - intros (url & response & payload & -> & -> & -> & -> & Hcode & -> & Hcmp).
    simpl. apply Z.eqb_eq in Hcode. rewrite Hcode. simpl.
    apply Z.ltb_ge in Hcmp. now rewrite Hcmp.
Qed.

(** A ValidationError carries the type of the first check that failed. *)
Lemma validateSiteVersion_validation_error env siteUrl e :
  validateSiteVersion env siteUrl = Rejected (Validation e) ->
  match type e with
  | connectionFailed =>
      (exists x, URL env "/api/v4/site/ping" siteUrl = inl x)
      \/ (exists url x, URL env "/api/v4/site/ping" siteUrl = inr url
                        /\ fetch env url = inl x)
  | httpError =>
      exists url response,
        URL env "/api/v4/site/ping" siteUrl = inr url
        /\ fetch env url = inr response /\ ok response = false
  | apiError =>
      exists url response payload,
        URL env "/api/v4/site/ping" siteUrl = inr url
        /\ fetch env url = inr response /\ ok response = true
        /\ json response = inr payload /\ code payload <> 0
  | versionTooLow =>
      exists url response payload,
        URL env "/api/v4/site/ping" siteUrl = inr url
        /\ fetch env url = inr response /\ ok response = true
        /\ json response = inr payload /\ code payload = 0
        /\ compareSemver (Js.replace_pro_suffix (data payload)) MIN_VERSION < 0
  end.
Proof.
  unfold validateSiteVersion, connection_failed.
  destruct (URL env _ siteUrl) as [x|url] eqn:Hurl.
  { intros [= <-]. simpl. left. eauto. }
  destruct (fetch env url) as [x|response] eqn:Hfetch.
  { intros [= <-]. simpl. right. eauto. }
  destruct (ok response) eqn:Hok; simpl.
  2:{ intros [= <-]. simpl. eauto. }
  destruct (json response) as [x|payload] eqn:Hjson; [discriminate|].
  destruct (code payload =? 0) eqn:Hcode; simpl.
  2:{ intros [= <-]. simpl. apply Z.eqb_neq in Hcode.
      exists url, response, payload. repeat split; assumption. }
  destruct (compareSemver _ MIN_VERSION <? 0) eqn:Hcmp; [|discriminate].
  intros [= <-]. simpl. apply Z.eqb_eq in Hcode. apply Z.ltb_lt in Hcmp.
  exists url, response, payload. repeat split; assumption.
Qed.

(** The remaining outcome: the rejection of [response.json()] is not caught
    and leaves the function as it is. *)
Lemma validateSiteVersion_exception_iff env siteUrl x :
  validateSiteVersion env siteUrl = Rejected (Exception x)
  <-> exists url response,
        URL env "/api/v4/site/ping" siteUrl = inr url
        /\ fetch env url = inr response
        /\ ok response = true
        /\ json response = inl x.
Proof.
  unfold validateSiteVersion, connection_failed. split.
  - destruct (URL env _ siteUrl) as [e|url] eqn:Hurl; [discriminate|].
    destruct (fetch env url) as [e|response] eqn:Hfetch; [discriminate|].
    destruct (ok response) eqn:Hok; simpl; [|discriminate].
    destruct (json response) as [e|payload] eqn:Hjson.
    + intros [= <-]. exists url, response. repeat split; assumption.
    + destruct (code payload =? 0); simpl; [|discriminate].
      destruct (compareSemver _ MIN_VERSION <? 0); discriminate.
  - intros (url & response & -> & -> & -> & ->). reflexivity.
Qed.

Example validateSiteVersion_examples :
  validateSiteVersion
    (site 200 {| code := 0; data := "4.12.0-pro"; msg := "" |})
    "https://cloud.example.com" = Resolved "4.12.0"
  /\ validateSiteVersion
       (site 200 {| code := 0; data := "4.11.3"; msg := "" |})
       "https://cloud.example.com"
     = Rejected (Validation
         {| type := versionTooLow;
            params := <[ "version" := "4.11.3" ]>
                        {[ "minVersion" := "4.12.0" ]} |})
  /\ validateSiteVersion
       (site 404 {| code := 0; data := "4.12.0"; msg := "" |})
       "https://cloud.example.com"
     = Rejected (Validation
         {| type := httpError; params := {[ "status" := "404" ]} |})
  /\ validateSiteVersion
       (site 200 {| code := 40001; data := ""; msg := "" |})
       "https://cloud.example.com"
     = Rejected (Validation
         {| type := apiError;
            params := {[ "message" := "Unknown error" ]} |}).
Proof. repeat split; vm_compute; reflexivity. Qed.

(** C8: on a site that answers the ping with status 200 and a body that is
    not JSON, [validateSiteVersion] neither resolves nor throws a
    ValidationError: it rejects with the error of [response.json()]. *)
Theorem validateSiteVersion_body_not_json :
  validateSiteVersion html_site "https://example.com"
    = Rejected (Exception (Js.ErrorObject "Unexpected token '<'"))
  /\ (forall v, validateSiteVersion html_site "https://example.com"
                <> Resolved v)
  /\ (forall e, validateSiteVersion html_site "https://example.com"
                <> Rejected (Validation e))
  /\ (forall e, validateSiteVersion html_site "https://example.com"
                  = Rejected e -> isValidationError e = false).
Proof.
  assert (H : validateSiteVersion html_site "https://example.com"
              = Rejected (Exception (Js.ErrorObject "Unexpected token '<'")))
    by reflexivity.
  rewrite H. repeat split; try discriminate.
  intros e [= <-]. reflexivity.
Qed.

End ValidateSiteVersion.

(** ** The fetch wrapper *)

Section FetchWrapper.

Import Fetch.

Lemma getUserAgent_consistent version cache :
  cache_consistent version cache ->
  getUserAgent (inr version) cache
  = (inr ("cloudreve-desktop/" ++ version),
     Some ("cloudreve-desktop/" ++ version)).
Proof. intros [-> | ->]; reflexivity. Qed.

Lemma not_contains_filter (h : Headers.t) name :
  Headers.contains h name = false ->
  List.filter (fun e => Headers.name_eqb (fst e) name) h = [].
Proof.
  induction h as [|e h IH]; simpl; [reflexivity|].
  destruct (Headers.name_eqb (fst e) name); simpl; [discriminate|exact IH].
Qed.

(** After [set] on a list without the name, [get] reads the value back and
    the earlier entries are still there, in order. *)
Lemma get_after_set (h h' : Headers.t) name value :
  Headers.contains h name = false ->
  Headers.set h name value = inr h' ->
  h' = (h ++ [(name, Headers.normalize value)])%list
  /\ Headers.get h' name = Some (Headers.normalize value).
Proof.
  intros Hno. unfold Headers.set. rewrite Hno.
  destruct (Headers.valid_name name && Headers.valid_value _) eqn:Hv;
    [|discriminate].
  intros [= <-]. split; [reflexivity|].
  assert (Hself : Headers.name_eqb name name = true)
    by (unfold Headers.name_eqb; apply String.eqb_refl).
  unfold Headers.get, Headers.contains.
  rewrite existsb_app, List.filter_app. simpl.
  rewrite Hself, orb_true_r. simpl.
  rewrite (not_contains_filter h name Hno). reflexivity.
Qed.

Lemma has_user_agent (h : Headers.t) :
  Headers.has h "User-Agent" = inr (Headers.contains h "User-Agent").
Proof. reflexivity. Qed.

(** What the wrapper hands to the underlying fetch, whenever it gets to the
    call. *)
Lemma fetch_call getVersion input init cache call cache' :
  fetch getVersion input init cache = (inr call, cache') ->
  exists userAgent headers,
    getUserAgent getVersion cache = (inr userAgent, cache')
    /\ new_Headers init = inr headers
    /\ fst call = input
    /\ (forall k, k <> "headers" -> snd call !! k = default ∅ init !! k)
    /\ (Headers.contains headers "User-Agent" = true ->
        snd call !! "headers" = Some (HeadersObject headers))
    /\ (Headers.contains headers "User-Agent" = false ->
        snd call !! "headers"
        = Some (HeadersObject
                  (headers ++ [("User-Agent", Headers.normalize userAgent)])%list)).
Proof.
  unfold fetch.
  destruct (getUserAgent getVersion cache) as [[e|userAgent] c]; [discriminate|].
  destruct (new_Headers init) as [e|headers]; [discriminate|].
  rewrite has_user_agent.
  destruct (Headers.contains headers "User-Agent") eqn:Hhas.
  - intros [= <- <-]. exists userAgent, headers. simpl.
    repeat split; try reflexivity; try (intros; congruence).
    + intros k Hk. unfold spread_with_headers. now rewrite lookup_insert_ne.
    + intros _. unfold spread_with_headers. now rewrite lookup_insert_eq.
  - destruct (Headers.set headers "User-Agent" userAgent) as [e|headers'] eqn:Hset;
      [discriminate|].
    destruct (get_after_set _ _ _ _ Hhas Hset) as [-> _].
    intros [= <- <-]. exists userAgent, headers. simpl.
    repeat split; try reflexivity; try (intros; congruence).
    + intros k Hk. unfold spread_with_headers. now rewrite lookup_insert_ne.
    + intros _. unfold spread_with_headers. now rewrite lookup_insert_eq.
Qed.

Lemma strip_start_id (l : list ascii) :
  forallb (fun c => negb (Headers.is_http_whitespace c)) l = true ->
  Headers.strip_start l = l.
Proof.
  destruct l as [|c l]; simpl; [reflexivity|].
  destruct (Headers.is_http_whitespace c); [discriminate|reflexivity].
Qed.

Lemma forallb_rev_true {A} (f : A -> bool) (l : list A) :
  forallb f l = true -> forallb f (rev l) = true.
Proof.
  rewrite !forallb_forall. intros H x Hx. apply H. now apply in_rev.
Qed.

Lemma normalize_whitespace_free (s : string) :
  Headers.whitespace_free s = true -> Headers.normalize s = s.
Proof.
  unfold Headers.whitespace_free, Headers.normalize. intros H.
  rewrite (strip_start_id _ H).
  rewrite (strip_start_id _ (forallb_rev_true _ _ H)).
  rewrite rev_involutive. apply string_of_list_ascii_of_string.
Qed.

Lemma whitespace_free_user_agent version :
  Headers.whitespace_free version = true ->
  Headers.whitespace_free ("cloudreve-desktop/" ++ version) = true.
Proof. intros H. exact H. Qed.

(** The other headers read the same before and after the user agent is
    added. *)
Lemma get_other_after_append (h : Headers.t) name value other :
  Headers.name_eqb name other = false ->
  Headers.get (h ++ [(name, value)])%list other = Headers.get h other.
Proof.
  intros Hne. unfold Headers.get, Headers.contains.
  rewrite existsb_app, List.filter_app. simpl.
  rewrite Hne, orb_false_r, app_nil_r. reflexivity.
Qed.

(** C10: when the wrapper calls the underlying fetch, the input and every
    field of [init] other than [headers] are passed as they are; if the
    caller's headers contain a User-Agent (under any casing) they are
    forwarded as the caller's [Headers] holds them; otherwise the only change
    is one added User-Agent entry, whose value is
    ["cloudreve-desktop/{version}"] (as [Headers] normalises it, which is the
    string itself for a version without white space). *)
Theorem fetch_user_agent_only_when_absent version input init cache call cache' :
  cache_consistent version cache ->
  fetch (inr version) input init cache = (inr call, cache') ->
  exists headers,
    new_Headers init = inr headers
    /\ fst call = input
    /\ (forall k, k <> "headers" -> snd call !! k = default ∅ init !! k)
    /\ (Headers.contains headers "User-Agent" = true ->
        snd call !! "headers" = Some (HeadersObject headers))
    /\ (Headers.contains headers "User-Agent" = false ->
        exists sent,
          snd call !! "headers" = Some (HeadersObject sent)
          /\ sent = (headers ++ [("User-Agent",
                       Headers.normalize ("cloudreve-desktop/" ++ version))])%list
          /\ Headers.get sent "User-Agent"
             = Some (Headers.normalize ("cloudreve-desktop/" ++ version))
          /\ (Headers.whitespace_free version = true ->
              Headers.get sent "User-Agent"
              = Some ("cloudreve-desktop/" ++ version))
          /\ (forall other, Headers.name_eqb "User-Agent" other = false ->
              Headers.get sent other = Headers.get headers other))
    /\ cache_consistent version cache'.
Proof.
  intros Hcache Hfetch.
  destruct (fetch_call _ _ _ _ _ _ Hfetch)
    as (userAgent & headers & Hua & Hnew & Hin & Hrest & Hkeep & Hadd).
  rewrite (getUserAgent_consistent _ _ Hcache) in Hua.
  injection Hua as <- <-.
  exists headers. repeat split; try assumption.
  - intros Hno. eexists. split; [exact (Hadd Hno)|]. split; [reflexivity|].
    assert (Hget : Headers.get
              (headers ++ [("User-Agent",
                 Headers.normalize ("cloudreve-desktop/" ++ version))])%list
              "User-Agent"
            = Some (Headers.normalize ("cloudreve-desktop/" ++ version))).
    { unfold Headers.get, Headers.contains.
      rewrite existsb_app, List.filter_app. simpl.
      rewrite orb_true_r. simpl.
      now rewrite (not_contains_filter headers "User-Agent" Hno). }
    split; [exact Hget|]. split.
    + intros Hws. rewrite Hget.
      now rewrite (normalize_whitespace_free _ (whitespace_free_user_agent _ Hws)).
    + intros other Hother. now apply get_other_after_append.
  - right. reflexivity.
Qed.

(** Whatever the outcome of a call, the cache stays consistent. *)
Lemma fetch_cache_consistent version input init cache r cache' :
  cache_consistent version cache ->
  fetch (inr version) input init cache = (r, cache') ->
  cache_consistent version cache'.
Proof.
  intros Hc. unfold fetch. rewrite (getUserAgent_consistent _ _ Hc).
  assert (Hout : forall x : Js.exn + (string * gmap string value),
             (x, Some ("cloudreve-desktop/" ++ version)) = (r, cache') ->
             cache_consistent version cache').
  { intros x [= _ <-]. right. reflexivity. }
  destruct (new_Headers init) as [e|headers]; [apply Hout|].
  rewrite has_user_agent.
  destruct (Headers.contains headers "User-Agent"); [apply Hout|].
  destruct (Headers.set headers "User-Agent" _); apply Hout.
Qed.

(** A call without headers gets the user agent; a call that brings its own
    keeps it. *)
Lemma fetch_user_agent_only_when_absent_witness :
  cache_consistent "0.1.0" None
  /\ fetch (inr "0.1.0") "https://c.example/api" None None
     = (inr ("https://c.example/api",
             {[ "headers" := HeadersObject
                  [("User-Agent", "cloudreve-desktop/0.1.0")] ]}),
        Some "cloudreve-desktop/0.1.0")
  /\ fetch (inr "0.1.0") "https://c.example/api"
       (Some (<[ "method" := Other "POST" ]>
                {[ "headers" := HeadersInit [("user-agent", " curl/8 ")] ]}))
       None
     = (inr ("https://c.example/api",
             <[ "method" := Other "POST" ]>
               {[ "headers" := HeadersObject [("user-agent", "curl/8")] ]}),
        Some "cloudreve-desktop/0.1.0")
  /\ new_Headers
       (Some (<[ "method" := Other "POST" ]>
                {[ "headers" := HeadersInit [("user-agent", " curl/8 ")] ]}))
     = inr [("user-agent", "curl/8")]
  /\ Headers.contains [("user-agent", "curl/8")] "User-Agent" = true.
Proof.
  assert (Hc : cache_consistent "0.1.0" None) by (left; reflexivity).
  assert (Hf : fetch (inr "0.1.0") "https://c.example/api"
                 (Some (<[ "method" := Other "POST" ]>
                    {[ "headers" := HeadersInit [("user-agent", " curl/8 ")] ]}))
                 None
               = (inr ("https://c.example/api",
                       <[ "method" := Other "POST" ]>
                         {[ "headers" := HeadersObject [("user-agent", "curl/8")] ]}),
                  Some "cloudreve-desktop/0.1.0")) by (vm_compute; reflexivity).
  split; [exact Hc|]. split; [vm_compute; reflexivity|]. split; [exact Hf|].
  destruct (fetch_user_agent_only_when_absent _ _ _ _ _ _ Hc Hf)
    as (headers & Hnew & _).
  split; [|reflexivity].
  rewrite Hnew. vm_compute in Hnew. injection Hnew as <-. reflexivity.
Defined.

End FetchWrapper.

(** ** The sync direction switch *)

Section SyncDirectionSwitch.

Import Drive DrivesSection.

Lemma direction_or_default_checked (syncDirections : gmap string string) driveId :
  bool_decide (direction_or_default syncDirections driveId = "one_way_upload")
  = switch_checked syncDirections driveId.
Proof.
  unfold direction_or_default, switch_checked, Js.string_or.
  destruct (syncDirections !! driveId) as [d|]; [|reflexivity].
  destruct (String.eqb d "") eqn:E.
  - apply String.eqb_eq in E. subst d. reflexivity.
  - apply bool_decide_ext. split; congruence.
Qed.

Lemma switch_checked_insert (s : gmap string string) driveId d :
  switch_checked (<[ driveId := d ]> s) driveId
  = bool_decide (d = "one_way_upload").
Proof.
  unfold switch_checked. rewrite lookup_insert_eq.
  apply bool_decide_ext. split; congruence.
Qed.

(** C6: a sync direction is TwoWay or OneWayUpload; the handler of the
    switch makes exactly one [set_sync_direction] call, whose direction is
    ["one_way_upload"] for a checked switch and ["two_way"] otherwise; when
    the call succeeds the switch shows the new direction, when it fails the
    switch shows again what it showed when it was clicked; the entries of
    the other drives are never touched. *)
Theorem handleSyncDirectionChange_writes_two_values_and_reverts
    (syncDirections prev : gmap string string) (drive : string)
    (checked : bool) (invoke : Js.exn + unit) :
  (forall d : SyncDirection, d = TwoWay \/ d = OneWayUpload)
  /\ (exists d,
        snd (handleSyncDirectionChange syncDirections drive checked invoke prev)
        = [ {| command := "set_sync_direction"; driveId := drive;
               direction := d |} ]
        /\ (d = "two_way" \/ d = "one_way_upload")
        /\ sync_direction_of_string d
           = Some (if checked then OneWayUpload else TwoWay))
  /\ (forall e, invoke = inl e ->
        switch_checked
          (fst (handleSyncDirectionChange syncDirections drive checked invoke prev))
          drive
        = switch_checked syncDirections drive)
  /\ (forall u, invoke = inr u ->
        switch_checked
          (fst (handleSyncDirectionChange syncDirections drive checked invoke prev))
          drive
        = checked)
  /\ (forall other, other <> drive ->
        fst (handleSyncDirectionChange syncDirections drive checked invoke prev)
          !! other
        = prev !! other).
Proof.
  split; [intros []; auto|].
  split.
  { exists (if checked then "one_way_upload" else "two_way").
    destruct invoke, checked; simpl; auto. }
  split.
  { intros e ->. simpl. rewrite switch_checked_insert.
    apply direction_or_default_checked. }
  split.
  { intros u ->. simpl. rewrite switch_checked_insert.
    destruct checked; reflexivity. }
  intros other Hother. destruct invoke; simpl;
    repeat rewrite lookup_insert_ne by congruence; reflexivity.
Qed.

(** On a state that is the rendered one, a failed change of a drive with a
    stored direction leaves the whole map as it was. *)
Lemma handleSyncDirectionChange_failure_restores_map
    (syncDirections : gmap string string) drive checked e d :
  syncDirections !! drive = Some d -> d <> "" ->
  fst (handleSyncDirectionChange syncDirections drive checked (inl e)
         syncDirections)
  = syncDirections.
Proof.
  intros Hd Hne. simpl. rewrite insert_insert_eq.
  apply insert_id. unfold direction_or_default. rewrite Hd.
  unfold Js.string_or. destruct (String.eqb d "") eqn:E; [|reflexivity].
  apply String.eqb_eq in E. congruence.
Qed.

Lemma handleSyncDirectionChange_writes_two_values_and_reverts_witness :
  switch_checked
    (fst (handleSyncDirectionChange {[ "drive-1" := "one_way_upload" ]}
            "drive-1" false (inl (Js.OtherValue "offline"))
            {[ "drive-1" := "one_way_upload" ]}))
    "drive-1"
  = switch_checked {[ "drive-1" := "one_way_upload" ]} "drive-1".
Proof.
  exact (proj1 (proj2 (proj2
    (handleSyncDirectionChange_writes_two_values_and_reverts
       {[ "drive-1" := "one_way_upload" ]} {[ "drive-1" := "one_way_upload" ]}
       "drive-1" false (inl (Js.OtherValue "offline")))))
    (Js.OtherValue "offline") eq_refl).
Defined.

End SyncDirectionSwitch.

(** ** Tables: what the declared constraints give *)

Section SqlFacts.

Import Sql.

Lemma column_values_cons c (r : row) rs :
  column_values c (r :: rs)
  = if is_null (get r c) then column_values c rs
    else get r c :: column_values c rs.
Proof. unfold column_values. simpl. destruct (is_null (get r c)); reflexivity. Qed.

Lemma column_values_filter_sublist c (P : row -> bool) rs :
  sublist (column_values c (List.filter P rs)) (column_values c rs).
Proof.
  induction rs as [|r rs IH]; [constructor|].
  simpl. destruct (P r).
  - rewrite !column_values_cons. destruct (is_null (get r c));
      [exact IH|now constructor].
  - rewrite column_values_cons. destruct (is_null (get r c));
      [exact IH|now constructor].
Qed.

Lemma unique_ok_spec t rs :
  unique_ok t rs = true
  <-> forall c, In c (tbl_columns t) -> must_be_unique c = true ->
                NoDup (column_values (col_name c) rs).
Proof.
  unfold unique_ok. rewrite forallb_forall. split.
  - intros H c Hc Hu. specialize (H c Hc). rewrite Hu in H. simpl in H.
    now apply bool_decide_eq_true in H.
  - intros H c Hc. destruct (must_be_unique c) eqn:Hu; [|reflexivity].
    simpl. apply bool_decide_eq_true. now apply H.
Qed.

Lemma not_null_ok_spec t (r : row) :
  not_null_ok t r = true
  <-> forall c, In c (tbl_columns t) -> col_not_null c = true ->
                get r (col_name c) <> Null.
Proof.
  unfold not_null_ok. rewrite forallb_forall. split.
  - intros H c Hc Hn E. specialize (H c Hc). rewrite Hn, E in H. discriminate.
  - intros H c Hc. destruct (col_not_null c) eqn:Hn; [|reflexivity].
    simpl. specialize (H c Hc Hn). destruct (get r (col_name c)); simpl; congruence.
Qed.

Lemma constraints_ok_filter t (P : row -> bool) rs :
  constraints_ok t rs = true -> constraints_ok t (List.filter P rs) = true.
Proof.
  unfold constraints_ok. rewrite !andb_true_iff. intros [Hn Hu]. split.
  - rewrite forallb_forall in *. intros r Hr. apply Hn.
    now apply filter_In in Hr.
  - rewrite unique_ok_spec in *. intros c Hc Hm.
    apply (sublist_NoDup _ (column_values (col_name c) rs));
      [exact (Hu c Hc Hm)|apply column_values_filter_sublist].
Qed.

Lemma constraints_ok_nil t : constraints_ok t [] = true.
Proof.
  unfold constraints_ok. simpl. apply unique_ok_spec. intros c _ _. constructor.
Qed.

(** Every state of a table satisfies its declared constraints. *)
Lemma reachable_constraints t s : reachable t s -> constraints_ok t (rows s) = true.
Proof.
  induction 1 as [|s r s' _ _ Hins|s a w s' _ _ Hupd|s w _ IH].
  - apply constraints_ok_nil.
  - unfold insert in Hins.
    destruct (known_columns t r && constraints_ok t _) eqn:E; [|discriminate].
    injection Hins as <-. simpl. now apply andb_true_iff in E.
  - unfold update in Hupd.
    destruct (known_columns t a && constraints_ok t _) eqn:E; [|discriminate].
    injection Hupd as <-. simpl. now apply andb_true_iff in E.
  - simpl. now apply constraints_ok_filter.
Qed.

Lemma reachable_not_null t s c (r : row) :
  reachable t s -> In c (tbl_columns t) -> col_not_null c = true ->
  In r (rows s) -> get r (col_name c) <> Null.
Proof.
  intros Hs Hc Hn Hr. apply reachable_constraints in Hs.
  unfold constraints_ok in Hs. apply andb_true_iff in Hs as [Hs _].
  rewrite forallb_forall in Hs. specialize (Hs r Hr).
  now apply (proj1 (not_null_ok_spec t r) Hs c).
Qed.

Lemma column_values_elem c (rs : list row) j (r : row) :
  rs !! j = Some r -> get r c <> Null -> get r c ∈ column_values c rs.
Proof.
  revert j. induction rs as [|r0 rs IH]; intros j Hj Hne; [discriminate|].
  rewrite column_values_cons. destruct j as [|j]; simpl in Hj.
  - injection Hj as ->. destruct (get r c); try congruence; simpl; left.
  - specialize (IH j Hj Hne).
    destruct (is_null (get r0 c)); [exact IH|now right].
Qed.

(** In a column without duplicates, two rows with the same non-NULL value
    are the same row. *)
Lemma column_values_lookup_inj c (rs : list row) i j (r1 r2 : row) :
  NoDup (column_values c rs) ->
  rs !! i = Some r1 -> rs !! j = Some r2 ->
  get r1 c = get r2 c -> get r1 c <> Null -> i = j.
Proof.
  revert i j. induction rs as [|r0 rs IH]; intros i j Hnd Hi Hj Heq Hne;
    [discriminate|].
  rewrite column_values_cons in Hnd.
  destruct i as [|i], j as [|j]; simpl in Hi, Hj; [reflexivity| | |].
  - injection Hi as ->.
    destruct (is_null (get r1 c)) eqn:E;
      [destruct (get r1 c); simpl in E; congruence|].
    apply NoDup_cons in Hnd as [Hnotin _]. exfalso. apply Hnotin.
    rewrite Heq. apply (column_values_elem c rs j r2 Hj). congruence.
  - injection Hj as ->.
    destruct (is_null (get r2 c)) eqn:E;
      [destruct (get r2 c); simpl in E; congruence|].
    apply NoDup_cons in Hnd as [Hnotin _]. exfalso. apply Hnotin.
    rewrite <- Heq. now apply (column_values_elem c rs i r1 Hi).
  - f_equal. apply (IH i j); try assumption.
    destruct (is_null (get r0 c)); [exact Hnd|].
    now apply NoDup_cons in Hnd as [_ Hnd].
Qed.

(** A column declared UNIQUE (or PRIMARY KEY) and NOT NULL identifies the
    row. *)
Lemma reachable_unique t s c i j (r1 r2 : row) :
  reachable t s -> In c (tbl_columns t) ->
  must_be_unique c = true -> col_not_null c = true ->
  rows s !! i = Some r1 -> rows s !! j = Some r2 ->
  get r1 (col_name c) = get r2 (col_name c) -> i = j.
Proof.
  intros Hs Hc Hu Hn Hi Hj Heq.
  apply (column_values_lookup_inj (col_name c) (rows s) i j r1 r2);
    try assumption.
  - pose proof (reachable_constraints t s Hs) as Hok.
    unfold constraints_ok in Hok. apply andb_true_iff in Hok as [_ Hok].
    now apply (proj1 (unique_ok_spec t (rows s)) Hok).
  - apply (reachable_not_null t s c r1 Hs Hc Hn).
    apply list_elem_of_In. now apply (list_elem_of_lookup_2 _ i).
Qed.

Lemma insert_accepted t (r : row) s :
  known_columns t r
  && constraints_ok t (rows s ++ [stored_row t s r])%list = true ->
  insert t r s
  = Some {| rows := (rows s ++ [stored_row t s r])%list;
            sequence := Z.max (sequence s) (rowid_of t (stored_row t s r)) |}.
Proof. intros H. unfold insert. now rewrite H. Qed.

End SqlFacts.

(** ** The upload session record and the drive properties record *)

Section InventoryFacts.

Import Sql Inventory.



(** [UPDATE] keeps the rows in place and leaves alone the columns it does not
    assign. *)
Lemma update_frame t (a : row) w s s' i (r : row) :
  update t a w s = Some s' -> rows s !! i = Some r ->
  exists r' : row,
    rows s' !! i = Some r' /\ forall c, a !! c = None -> get r' c = get r c.
Proof.
  unfold update. intros Hupd Hi.
  destruct (known_columns t a && constraints_ok t _); [|discriminate].
  injection Hupd as <-. simpl. rewrite list_lookup_fmap, Hi. simpl.
  eexists. split; [reflexivity|]. intros c Hc.
  destruct (w r); [|reflexivity].
  unfold get. now rewrite lookup_union_r.
Qed.


Lemma one_session_reachable encrypt_metadata :
  reachable upload_sessions (one_session encrypt_metadata).
Proof.
  eapply reachable_insert; [apply reachable_empty|].
  apply insert_accepted. vm_compute. reflexivity.
Qed.

Lemma one_session_row encrypt_metadata :
  In (stored_row upload_sessions empty
        (sample_session "s1" "/a.bin" encrypt_metadata 100))
     (rows (one_session encrypt_metadata)).
Proof. left. reflexivity. Qed.






(** C7: a drive has at most one cached-properties row; the row has the three
    property columns, each with its own timestamp column, all six distinct;
    and an [UPDATE] that assigns one group (and the row's [updated_at])
    leaves the values and the timestamps of the other two groups as they
    were, in every row. *)
Theorem drive_props_unique_drive_and_independent_groups :
  (forall s i j (r1 r2 : row),
     reachable drive_props s ->
     rows s !! i = Some r1 -> rows s !! j = Some r2 ->
     get r1 "drive_id" = get r2 "drive_id" -> i = j)
  /\ (forall g, In g property_groups ->
        In (fst g) (col_name <$> tbl_columns drive_props)
        /\ In (snd g) (col_name <$> tbl_columns drive_props))
  /\ NoDup (map fst property_groups ++ map snd property_groups)
  /\ (forall g (a : row) w s s' i (r : row),
        In g property_groups ->
        dom a ⊆ {[ fst g; snd g; "updated_at" ]} ->
        update drive_props a w s = Some s' ->
        rows s !! i = Some r ->
        exists r' : row,
          rows s' !! i = Some r'
          /\ forall g', In g' property_groups -> g' <> g ->
                        get r' (fst g') = get r (fst g')
                        /\ get r' (snd g') = get r (snd g')).
Proof.
  split.
  { intros s i j r1 r2 Hs Hi Hj Heq.
    apply (reachable_unique drive_props s
             {| col_name := "drive_id"; col_affinity := TEXT;
                col_not_null := true; col_primary_key := false;
                col_autoincrement := false; col_unique := true;
                col_default := None |} i j r1 r2 Hs);
      try assumption; try reflexivity.
    simpl. tauto. }
  split.
  { intros g Hg. simpl in Hg.
    destruct Hg as [<-|[<-|[<-|[]]]]; split; vm_compute; tauto. }
  split.
  { apply (bool_decide_unpack _). vm_compute. exact I. }
  intros g a w s s' i r Hg Hdom Hupd Hi.
  destruct (update_frame _ _ _ _ _ _ _ Hupd Hi) as (r' & Hi' & Hframe).
  exists r'. split; [exact Hi'|].
  intros g' Hg' Hne.
  assert (Hout : forall c, c ∉ ({[ fst g; snd g; "updated_at" ]} : gset string) ->
                           a !! c = None).
  { intros c Hc. apply not_elem_of_dom. intros Hin. apply Hc, Hdom, Hin. }
  simpl in Hg, Hg'.
  destruct Hg as [<-|[<-|[<-|[]]]], Hg' as [<-|[<-|[<-|[]]]];
    try congruence; simpl;
    split; apply Hframe, Hout; apply (bool_decide_unpack _); vm_compute;
    exact I.
Qed.

(** Refreshing the capacity of a drive leaves the storage policies'
    timestamp alone; a second row for the same drive is refused. *)
Lemma drive_props_unique_drive_and_independent_groups_witness :
  insert drive_props (sample_props "drive-1")
    {| rows := [stored_row drive_props empty (sample_props "drive-1")];
       sequence := 1 |} = None
  /\ get ((<[ "capacity" := Text "{}" ]> {[ "capacity_updated_at" := Int 20 ]})
          ∪ stored_row drive_props empty (sample_props "drive-1"))
       "storage_policies_updated_at"
     = get (stored_row drive_props empty (sample_props "drive-1"))
         "storage_policies_updated_at".
Proof.
  split; [vm_compute; reflexivity|].
  destruct (proj2 (proj2 (proj2 drive_props_unique_drive_and_independent_groups))
              ("capacity", "capacity_updated_at")
              (<[ "capacity" := Text "{}" ]> {[ "capacity_updated_at" := Int 20 ]})
              (fun r => bool_decide (get r "drive_id" = Text "drive-1"))
              {| rows := [stored_row drive_props empty (sample_props "drive-1")];
                 sequence := 1 |}
              {| rows := [ (<[ "capacity" := Text "{}" ]>
                             {[ "capacity_updated_at" := Int 20 ]})
                          ∪ stored_row drive_props empty (sample_props "drive-1") ];
                 sequence := 1 |}
              0%nat
              (stored_row drive_props empty (sample_props "drive-1")))
    as (r' & Hr' & Hframe).
  - simpl. tauto.
  - apply (bool_decide_unpack _). vm_compute. exact I.
  - vm_compute. reflexivity.
  - reflexivity.
  - injection Hr' as <-.
    apply (Hframe ("storage_policies", "storage_policies_updated_at")).
    + simpl. tauto.
    + discriminate.
Defined.

End InventoryFacts.

(** ** The session store: one live session per drive and path *)

Section SessionStoreFacts.

Import Sql SessionStore.

Lemma filter_length_mono {A} (P Q : A -> bool) (l : list A) :
  (forall x, P x = true -> Q x = true) ->
  (length (List.filter P l) <= length (List.filter Q l))%nat.
Proof.
  intros H. induction l as [|x l IH]; simpl; [lia|].
  destruct (P x) eqn:E.
  - rewrite (H x E). simpl. lia.
  - destruct (Q x); simpl; lia.
Qed.

Lemma filter_filter_length {A} (P Q : A -> bool) (l : list A) :
  (length (List.filter P (List.filter Q l)) <= length (List.filter P l))%nat.
Proof.
  induction l as [|x l IH]; simpl; [lia|].
  destruct (Q x); simpl; destruct (P x); simpl; lia.
Qed.

Lemma filter_fmap_length {A} (P : A -> bool) (f : A -> A) (l : list A) :
  (forall x, P (f x) = P x) ->
  length (List.filter P (f <$> l)) = length (List.filter P l).
Proof.
  intros H. induction l as [|x l IH]; [reflexivity|].
  rewrite fmap_cons. cbn [List.filter]. rewrite H.
  destruct (P x); cbn [length]; rewrite IH; reflexivity.
Qed.

Lemma find_none_filter {A} (P : A -> bool) (l : list A) :
  find P l = None -> List.filter P l = [].
Proof.
  induction l as [|x l IH]; simpl; [reflexivity|].
  destruct (P x); [discriminate|exact IH].
Qed.

(** If at most one element satisfies [P], two positions that do are the
    same. *)
Lemma filter_at_most_one {A} (P : A -> bool) (l : list A) i j x y :
  (length (List.filter P l) <= 1)%nat ->
  l !! i = Some x -> l !! j = Some y -> P x = true -> P y = true -> i = j.
Proof.
  revert i j. induction l as [|z l IH]; intros i j Hlen Hi Hj Hx Hy;
    [discriminate|].
  assert (Hin : forall k w, l !! k = Some w -> P w = true ->
                            (1 <= length (List.filter P l))%nat).
  { intros k w Hk Hw.
    assert (In w (List.filter P l)).
    { apply filter_In. split; [|exact Hw].
      apply list_elem_of_In. now apply (list_elem_of_lookup_2 _ k). }
    destruct (List.filter P l); [contradiction|simpl; lia]. }
  simpl in Hlen.
  destruct i as [|i], j as [|j]; simpl in Hi, Hj; [reflexivity| | |].
  - injection Hi as ->. rewrite Hx in Hlen. simpl in Hlen.
    specialize (Hin j y Hj Hy). lia.
  - injection Hj as ->. rewrite Hy in Hlen. simpl in Hlen.
    specialize (Hin i x Hi Hx). lia.
  - f_equal. apply (IH i j); try assumption.
    destruct (P z); simpl in Hlen; lia.
Qed.

Lemma stored_row_lookup t s (r : row) c :
  NoDup (col_name <$> tbl_columns t) -> In c (tbl_columns t) ->
  stored_row t s r !! col_name c = Some (stored_value s r c).
Proof.
  intros Hnd Hc. unfold stored_row. apply elem_of_list_to_map_1.
  - rewrite <- list_fmap_compose. exact Hnd.
  - apply list_elem_of_fmap. exists c. split; [reflexivity|].
    now apply list_elem_of_In.
Qed.

Lemma upload_sessions_names_NoDup :
  NoDup (col_name <$> tbl_columns Inventory.upload_sessions).
Proof. apply (bool_decide_unpack _). vm_compute. exact I. Qed.

(** [INSERT] stores the drive, the path and the expiry as they are given. *)
Lemma stored_plain_column s (r : row) name :
  In name ["drive_id"; "local_path"; "expires_at"] ->
  get (stored_row Inventory.upload_sessions s r) name = get r name.
Proof.
  intros Hin. unfold get.
  assert (Hc : exists c, In c (tbl_columns Inventory.upload_sessions)
                 /\ col_name c = name /\ col_autoincrement c = false
                 /\ col_default c = None).
  { destruct Hin as [<-|[<-|[<-|[]]]];
      [exists (Inventory.text_not_null "drive_id")
      |exists (Inventory.text_not_null "local_path")
      |exists (Inventory.integer_not_null "expires_at")];
      (split; [simpl; tauto|repeat split]). }
  destruct Hc as (c & Hc & <- & Hauto & Hdef).
  rewrite (stored_row_lookup _ _ _ _ upload_sessions_names_NoDup Hc).
  unfold stored_value. rewrite Hauto, Hdef.
  destruct (r !! col_name c) as [v|]; [|reflexivity].
  now rewrite andb_false_r.
Qed.

Lemma live_for_stored s (session : row) now d p :
  live_for now d p (stored_row Inventory.upload_sessions s session)
  = live_for now d p session.
Proof.
  unfold live_for, for_path, live.
  rewrite !stored_plain_column by (simpl; tauto). reflexivity.
Qed.

Lemma live_for_assigned (a r : row) now d p :
  a !! "drive_id" = None -> a !! "local_path" = None ->
  a !! "expires_at" = None ->
  live_for now d p (a ∪ r) = live_for now d p r.
Proof.
  intros H1 H2 H3. unfold live_for, for_path, live, get.
  rewrite !lookup_union_r by assumption. reflexivity.
Qed.

Lemma live_for_earlier now now' d p (r : row) :
  now <= now' -> live_for now' d p r = true -> live_for now d p r = true.
Proof.
  intros Hle. unfold live_for, live. rewrite !andb_true_iff.
  intros [Hp Hl]. split; [exact Hp|].
  destruct (get r "expires_at"); try discriminate.
  apply Z.leb_le in Hl. apply Z.leb_le. lia.
Qed.

Lemma step_one_live_each q st : one_live_each st -> one_live_each (step q st).
Proof.
  intros Hinv. destruct q as [session|id progress|id|drive path|later]; simpl.
  - destruct (find_live _ _ _ _) eqn:Hfind; [exact Hinv|].
    destruct (insert _ session _) as [s'|] eqn:Hins; [|exact Hinv].
    unfold insert in Hins.
    destruct (known_columns _ _ && constraints_ok _ _); [|discriminate].
    injection Hins as <-. intros d p. cbn [rows sessions now].
    rewrite List.filter_app, length_app. cbn [List.filter].
    rewrite live_for_stored.
    destruct (live_for (now st) d p session) eqn:Hlive; cbn [length].
    + assert (Hkey : d = get session "drive_id" /\ p = get session "local_path").
      { unfold live_for, for_path in Hlive.
        apply andb_true_iff in Hlive as [Hp _].
        apply andb_true_iff in Hp as [H1 H2].
        apply bool_decide_eq_true in H1, H2. auto. }
      destruct Hkey as [-> ->].
      unfold find_live in Hfind. apply find_none_filter in Hfind.
      unfold live_for. rewrite Hfind. cbn [length]. lia.
    + specialize (Hinv d p). lia.
  - destruct (update _ _ _ _) as [s'|] eqn:Hupd; [|exact Hinv].
    unfold update in Hupd.
    destruct (known_columns _ _ && constraints_ok _ _); [|discriminate].
    injection Hupd as <-. intros d p. cbn [rows sessions now].
    rewrite filter_fmap_length; [apply Hinv|].
    intros r. destruct (has_id id r); [|reflexivity].
    apply live_for_assigned; reflexivity.
  - intros d p. simpl.
    etransitivity; [apply filter_filter_length|apply Hinv].
  - intros d p. simpl.
    etransitivity; [apply filter_filter_length|apply Hinv].
  - intros d p. simpl.
    etransitivity; [|apply (Hinv d p)].
    apply filter_length_mono. intros r. apply live_for_earlier. lia.
Qed.

Lemma reachable_one_live_each st : reachable st -> one_live_each st.
Proof.
  induction 1 as [t0|q st _ IH].
  - intros d p. simpl. lia.
  - now apply step_one_live_each.
Qed.

(** C1: in every state of the session store, two rows for the same drive and
    the same local path that are both live are one and the same row. *)
Theorem at_most_one_live_session_per_drive_and_path st i j (r1 r2 : row) :
  reachable st ->
  rows (sessions st) !! i = Some r1 ->
  rows (sessions st) !! j = Some r2 ->
  get r1 "drive_id" = get r2 "drive_id" ->
  get r1 "local_path" = get r2 "local_path" ->
  live (now st) r1 = true -> live (now st) r2 = true ->
  i = j.
Proof.
  intros Hst Hi Hj Hd Hp H1 H2.
  apply (filter_at_most_one
           (live_for (now st) (get r1 "drive_id") (get r1 "local_path"))
           (rows (sessions st)) i j r1 r2); try assumption.
  - now apply reachable_one_live_each.
  - unfold live_for, for_path. rewrite H1, !bool_decide_eq_true_2; reflexivity.
  - unfold live_for, for_path. rewrite H2, !bool_decide_eq_true_2; auto.
Qed.

Lemma begin_fresh st (session : row) :
  find_live (now st) (get session "drive_id") (get session "local_path")
    (rows (sessions st)) = None ->
  known_columns Inventory.upload_sessions session
  && constraints_ok Inventory.upload_sessions
       (rows (sessions st)
        ++ [stored_row Inventory.upload_sessions (sessions st) session])%list
  = true ->
  rows (sessions (step (Begin session) st))
  = (rows (sessions st)
     ++ [stored_row Inventory.upload_sessions (sessions st) session])%list.
Proof.
  intros Hfind Hok. cbn [step]. rewrite Hfind, (insert_accepted _ _ _ Hok).
  reflexivity.
Qed.

Lemma at_most_one_live_session_per_drive_and_path_witness :
  reachable one_session_begun
  /\ rows (sessions one_session_begun) !! 0%nat
     = Some (stored_row Inventory.upload_sessions empty
               (Inventory.sample_session "s1" "/a.bin" Null 100))
  /\ live (now one_session_begun)
       (stored_row Inventory.upload_sessions empty
          (Inventory.sample_session "s1" "/a.bin" Null 100)) = true
  /\ 0%nat = 0%nat.
Proof.
  assert (Hreach : reachable one_session_begun)
    by (apply reachable_step, reachable_start).
  assert (Hrow : rows (sessions one_session_begun) !! 0%nat
                 = Some (stored_row Inventory.upload_sessions empty
                           (Inventory.sample_session "s1" "/a.bin" Null 100))).
  { unfold one_session_begun. rewrite begin_fresh; [reflexivity|reflexivity|].
    vm_compute. reflexivity. }
  assert (Hlive : live (now one_session_begun)
                    (stored_row Inventory.upload_sessions empty
                       (Inventory.sample_session "s1" "/a.bin" Null 100)) = true)
    by (vm_compute; reflexivity).
  split; [exact Hreach|]. split; [exact Hrow|]. split; [exact Hlive|].
  exact (at_most_one_live_session_per_drive_and_path one_session_begun 0 0 _ _
           Hreach Hrow Hrow eq_refl eq_refl Hlive Hlive).
Defined.

(** After the first session has expired the transfer is begun again: the
    table then holds both sessions, one of them live. *)
Example expired_session_is_recreated :
  reachable expired_and_begun_again
  /\ length (rows (sessions expired_and_begun_again)) = 2%nat
  /\ length (List.filter
               (live_for (now expired_and_begun_again)
                  (Text "drive-1") (Text "/a.bin"))
               (rows (sessions expired_and_begun_again))) = 1%nat.
Proof.
  split; [do 3 apply reachable_step; apply reachable_start|].
  split; vm_compute; reflexivity.
Qed.

(** The table by itself does not refuse a second live session for a path:
    its only key is [id].  The invariant is the store's, not the schema's. *)
Lemma upload_sessions_constraints_allow_two_live_sessions :
  exists s,
    Sql.reachable Inventory.upload_sessions s
    /\ length (rows s) = 2%nat
    /\ length (List.filter (live_for 0 (Text "drive-1") (Text "/a.bin")) (rows s))
       = 2%nat.
Proof.
  eexists. split.
  - eapply Sql.reachable_insert
      with (r := Inventory.sample_session "s2" "/a.bin" Null 300).
    + eapply Sql.reachable_insert
        with (r := Inventory.sample_session "s1" "/a.bin" Null 100);
        [apply Sql.reachable_empty|].
      apply insert_accepted. vm_compute. reflexivity.
    + apply insert_accepted. vm_compute. reflexivity.
  - split; vm_compute; reflexivity.
Qed.

End SessionStoreFacts.

(** ** The drive registry *)

Section DriveManagerFacts.

Import Drive DriveManager.

(** C3: [add_drive] with an id that is already registered fails with
    AlreadyExists, [update_drive] and [remove_drive] with an id that is not
    registered fail with NotFound, and in the three cases the registry is
    left as it was. *)
Theorem registry_duplicate_and_unknown_ids :
  (forall config write_ok st,
     is_Some (drives st !! id config) ->
     add_drive config write_ok st = (inl (AlreadyExists (id config)), st))
  /\ (forall i config write_ok st,
        drives st !! i = None ->
        update_drive i config write_ok st = (inl (NotFound i), st))
  /\ (forall i write_ok st,
        drives st !! i = None ->
        remove_drive i write_ok st = (inl (NotFound i), st)).
Proof.
  split; [|split].
  - intros config w st [c Hc]. unfold add_drive. now rewrite Hc.
  - intros i config w st Hi. unfold update_drive. now rewrite Hi.
  - intros i w st Hi. unfold remove_drive. now rewrite Hi.
Qed.

Lemma registry_duplicate_and_unknown_ids_witness :
  add_drive sample_config true sample_registry
    = (inl (AlreadyExists "drive-1"), sample_registry)
  /\ update_drive "drive-2" sample_config true sample_registry
     = (inl (NotFound "drive-2"), sample_registry)
  /\ remove_drive "drive-2" true sample_registry
     = (inl (NotFound "drive-2"), sample_registry).
Proof.
  split; [|split].
  - apply (proj1 registry_duplicate_and_unknown_ids sample_config true
             sample_registry).
    exists sample_config. reflexivity.
  - apply (proj1 (proj2 registry_duplicate_and_unknown_ids)). reflexivity.
  - apply (proj2 (proj2 registry_duplicate_and_unknown_ids)). reflexivity.
Defined.

Lemma run_success m write_ok st st' :
  run m write_ok st = (None, st') ->
  write_ok = true
  /\ st' = broadcast (event_of m)
             {| drives := requested m (drives st);
                persisted := requested m (drives st);
                events := events st |}
  /\ match m with
     | Add config => drives st !! id config = None
     | Remove i => is_Some (drives st !! i)
     | Update i _ => is_Some (drives st !! i)
     end.
Proof.
  destruct m as [config|i|i config]; simpl;
    unfold add_drive, remove_drive, update_drive, persist, with_drives;
    destruct (drives st !! _) eqn:Hl; simpl; try discriminate;
    destruct write_ok; simpl; try discriminate;
    intros [= <-]; repeat split; eauto.
Qed.

(** C5: a mutation that returns success leaves the registry with the
    requested configuration set both in memory and in the durable store, and
    with the mutation's event broadcast last; after a successful add or
    remove, and after any update that changes the set, the durable store no
    longer holds the set from before the mutation. *)
Theorem registry_mutation_persists_and_emits m write_ok st st' :
  run m write_ok st = (None, st') ->
  persisted st' = drives st'
  /\ drives st' = requested m (drives st)
  /\ events st' = (events st ++ [event_of m])%list
  /\ (requested m (drives st) <> drives st -> persisted st' <> drives st)
  /\ match m with
     | Update _ _ => True
     | _ => persisted st' <> drives st
     end.
Proof.
  intros Hrun. apply run_success in Hrun as (_ & -> & Hpre). simpl.
  split; [reflexivity|]. split; [reflexivity|]. split; [reflexivity|].
  split; [tauto|].
  destruct m as [config|i|i config]; [| |exact I]; simpl; intros E.
  - assert (H : (<[id config:=config]> (drives st)) !! id config = Some config)
      by apply lookup_insert_eq.
    rewrite E, Hpre in H. discriminate.
  - destruct Hpre as [c Hc].
    assert (H : base.delete i (drives st) !! i = None) by apply lookup_delete_eq.
    rewrite E, Hc in H. discriminate.
Qed.

Lemma registry_mutation_persists_and_emits_witness :
  persisted (snd (run (Add sample_config) true empty_registry))
    = {[ "drive-1" := sample_config ]}
  /\ events (snd (run (Add sample_config) true empty_registry))
     = [DriveAdded "drive-1" "Work"].
Proof.
  destruct (registry_mutation_persists_and_emits (Add sample_config) true
              empty_registry (snd (run (Add sample_config) true empty_registry))
              eq_refl) as (Hp & Hd & He & _).
  split.
  - rewrite Hp, Hd. reflexivity.
  - rewrite He. reflexivity.
Defined.

End DriveManagerFacts.

(** ** File and folder names *)

Section PathNamesFacts.

Import JsString PathNames.

Lemma split_by_not_nil f s : split_by f s <> [].
Proof.
  destruct s as [|c s]; simpl; [discriminate|].
  destruct (f c); [discriminate|]. destruct (split_by f s); discriminate.
Qed.

Lemma split_by_free f s :
  existsb f (list_ascii_of_string s) = false -> split_by f s = [s].
Proof.
  induction s as [|c s IH]; simpl; [reflexivity|].
  intros H. apply orb_false_iff in H as [Hc Hs].
  rewrite Hc, (IH Hs). reflexivity.
Qed.

Lemma split_by_at_separator f a c b :
  f c = true ->
  split_by f (a ++ String c b) = (split_by f a ++ split_by f b)%list.
Proof.
  intros Hc. induction a as [|x a IH]; simpl.
  - now rewrite Hc.
  - destruct (f x); rewrite IH; [reflexivity|].
    pose proof (split_by_not_nil f a) as Hne.
    destruct (split_by f a); [congruence|reflexivity].
Qed.

Lemma last_element_last (l : list string) : last_element l = last l.
Proof. unfold last_element. rewrite last_lookup. f_equal. lia. Qed.

Lemma last_split_after_separator f a c b :
  f c = true -> last (split_by f (a ++ String c b)) = last (split_by f b).
Proof.
  intros Hc. rewrite (split_by_at_separator f a c b Hc).
  pose proof (split_by_not_nil f b) as Hne.
  destruct (split_by f b) as [|h t] eqn:E; [congruence|].
  now rewrite last_app_cons.
Qed.

(** Every path is free of separators or has a last separator. *)
Lemma last_separator f s :
  existsb f (list_ascii_of_string s) = false
  \/ exists a c b, f c = true
       /\ existsb f (list_ascii_of_string b) = false
       /\ s = a ++ String c b.
Proof.
  induction s as [|x s IH]; [now left|]. simpl.
  destruct IH as [Hfree|(a & c & b & Hc & Hb & ->)].
  - destruct (f x) eqn:Hx; [|now left].
    right. exists "", x, s. auto.
  - right. exists (String x a), c, b. auto.
Qed.

Lemma getFileName_of_split path :
  getFileName path
  = match last (split_by is_slash_or_backslash path) with
    | Some p => Js.string_or p path
    | None => path
    end.
Proof. unfold getFileName. now rewrite last_element_last. Qed.

Lemma getFileName_free name :
  existsb is_slash_or_backslash (list_ascii_of_string name) = false ->
  getFileName name = name.
Proof.
  intros H. rewrite getFileName_of_split, (split_by_free _ _ H). simpl.
  unfold Js.string_or. destruct (String.eqb name "") eqn:E; reflexivity.
Qed.

Lemma getFileName_after_separator dir c name :
  is_slash_or_backslash c = true ->
  existsb is_slash_or_backslash (list_ascii_of_string name) = false ->
  getFileName (dir ++ String c name)
  = if String.eqb name "" then dir ++ String c name else name.
Proof.
  intros Hc Hname. rewrite getFileName_of_split.
  rewrite (last_split_after_separator _ dir c name Hc).
  rewrite (split_by_free _ _ Hname). reflexivity.
Qed.

(** X1: [getFileName] returns what follows the last [/] or [\] of the path;
    a path without separator, and a path that ends in one, is returned
    whole; so the result of [getFileName] is left unchanged by a second
    application. *)
Theorem getFileName_last_component :
  (forall dir c name,
     is_slash_or_backslash c = true ->
     existsb is_slash_or_backslash (list_ascii_of_string name) = false ->
     name <> "" ->
     getFileName (dir ++ String c name) = name)
  /\ (forall dir c,
        is_slash_or_backslash c = true ->
        getFileName (dir ++ String c "") = dir ++ String c "")
  /\ (forall name,
        existsb is_slash_or_backslash (list_ascii_of_string name) = false ->
        getFileName name = name)
  /\ (forall path, getFileName (getFileName path) = getFileName path).
Proof.
  split; [|split; [|split]].
  - intros dir c name Hc Hname Hne.
    rewrite (getFileName_after_separator dir c name Hc Hname).
    destruct (String.eqb name "") eqn:E; [|reflexivity].
    apply String.eqb_eq in E. congruence.
  - intros dir c Hc.
    now rewrite (getFileName_after_separator dir c "" Hc eq_refl).
  - apply getFileName_free.
  - intros path.
    destruct (last_separator is_slash_or_backslash path)
      as [Hfree|(a & c & b & Hc & Hb & ->)].
    + now rewrite !(getFileName_free _ Hfree).
    + rewrite (getFileName_after_separator a c b Hc Hb).
      destruct (String.eqb b "") eqn:E.
      * rewrite (getFileName_after_separator a c b Hc Hb), E. reflexivity.
      * now apply getFileName_free.
Qed.

Lemma getFileName_last_component_witness :
  getFileName "C:\Users\me\Cloud/report.pdf" = "report.pdf"
  /\ getFileName "/home/me/Cloud/" = "/home/me/Cloud/"
  /\ getFileName "notes.txt" = "notes.txt".
Proof.
  split; [|split].
  - apply (proj1 getFileName_last_component "C:\Users\me\Cloud" "/"%char "report.pdf");
      [reflexivity|reflexivity|discriminate].
  - apply (proj1 (proj2 getFileName_last_component) "/home/me/Cloud" "/"%char).
    reflexivity.
  - apply (proj1 (proj2 (proj2 getFileName_last_component))). reflexivity.
Defined.

Lemma eqb_slash_sym x : Ascii.eqb "/" x = Ascii.eqb x "/".
Proof.
  destruct (Ascii.eqb x "/") eqn:Es.
  - apply Ascii.eqb_eq in Es. now subst x.
  - apply Ascii.eqb_neq. apply Ascii.eqb_neq in Es. congruence.
Qed.

Lemma split_replaced_backslashes path :
  split_by (Ascii.eqb "/") (replace_all "\" "/" path)
  = split_by is_slash_or_backslash path.
Proof.
  induction path as [|x path IH]; [reflexivity|].
  cbn [split_by replace_all]. rewrite IH.
  assert (H : Ascii.eqb "/" (if Ascii.eqb x "\" then "/"%char else x)
              = is_slash_or_backslash x).
  { unfold is_slash_or_backslash. destruct (Ascii.eqb x "\").
    - now rewrite orb_true_r.
    - now rewrite orb_false_r, eqb_slash_sym. }
  rewrite H. destruct (is_slash_or_backslash x) eqn:Hx; [reflexivity|].
  unfold is_slash_or_backslash in Hx. apply orb_false_iff in Hx as [_ Hx].
  now rewrite Hx.
Qed.

(** X2: the drives page's [getFolderName] and the popup's [getFileName]
    return the same name for every path, although one replaces the
    backslashes first and the other splits on both separators. *)
Theorem getFolderName_is_getFileName path :
  getFolderName path = getFileName path.
Proof.
  unfold getFolderName, getFileName. now rewrite split_replaced_backslashes.
Qed.

End PathNamesFacts.

(** ** More on version comparison and validation *)

Section VersionOrder.

Import SiteValidation.

Lemma or_zero_not_NaN v : Js.or_zero v <> Js.NaN.
Proof.
  destruct v as [[| |q|]|]; simpl; try discriminate.
  destruct (negb (Qeq_bool q 0)); discriminate.
Qed.

Lemma lt_finite p q :
  Js.lt (Js.Finite p) (Js.Finite q) = true <-> (p < q)%Q.
Proof.
  simpl. rewrite Qlt_alt. destruct (p ?= q)%Q; split; congruence.
Qed.

Lemma lt_trans (x y z : Js.number) :
  Js.lt x y = true -> Js.lt y z = true -> Js.lt x z = true.
Proof.
  destruct x as [| |p|], y as [| |q|], z as [| |r|];
    try (simpl; congruence).
  rewrite !lt_finite. apply Qlt_trans.
Qed.

(** Between two numbers in strict order, any third number is above the
    smaller or below the larger. *)
Lemma lt_between (x y z : Js.number) :
  y <> Js.NaN -> Js.lt x z = true ->
  Js.lt x y = true \/ Js.lt y z = true.
Proof.
  destruct x as [| |p|], y as [| |q|], z as [| |r|];
    try (simpl; congruence); try (simpl; auto; fail).
  intros _. rewrite !lt_finite. intros H.
  destruct (Qlt_le_dec p q) as [H1|H1]; [now left|right].
  eapply Qle_lt_trans; eauto.
Qed.

Lemma loop_transitive pa pb pc n i :
  compareSemver_loop pa pb n i <= 0 ->
  compareSemver_loop pb pc n i <= 0 ->
  compareSemver_loop pa pc n i <= 0
  /\ (compareSemver_loop pa pb n i < 0 \/ compareSemver_loop pb pc n i < 0 ->
      compareSemver_loop pa pc n i < 0).
Proof.
  revert i. induction n as [|n IH]; intros i; simpl; [lia|].
  pose proof (or_zero_not_NaN (pa !! i)) as Ha.
  pose proof (or_zero_not_NaN (pb !! i)) as Hb.
  pose proof (or_zero_not_NaN (pc !! i)) as Hc.
  set (A := Js.or_zero (pa !! i)) in *.
  set (B := Js.or_zero (pb !! i)) in *.
  set (C := Js.or_zero (pc !! i)) in *.
  destruct (Js.lt A B) eqn:AB.
  - intros _.
    destruct (Js.lt B C) eqn:BC.
    + intros _. rewrite (lt_trans _ _ _ AB BC). lia.
    + destruct (Js.lt C B) eqn:CB; [lia|]. intros _.
      destruct (lt_between A C B Hc AB) as [H|H]; [|congruence].
      rewrite H. lia.
  - destruct (Js.lt B A) eqn:BA; [lia|]. intros Hab.
    destruct (Js.lt B C) eqn:BC.
    + intros _. destruct (lt_between B A C Ha BC) as [H|H]; [congruence|].
      rewrite H. lia.
    + destruct (Js.lt C B) eqn:CB; [lia|]. intros Hbc.
      destruct (Js.lt A C) eqn:AC.
      { destruct (lt_between A B C Hb AC); congruence. }
      destruct (Js.lt C A) eqn:CA.
      { destruct (lt_between C B A Hb CA); congruence. }
      now apply IH.
Qed.

(** The loop may be run up to any length that covers both versions. *)
Lemma compareSemver_upto a b n :
  (length (Js.split_dot a) <= n)%nat -> (length (Js.split_dot b) <= n)%nat ->
  compareSemver a b
  = compareSemver_loop (map Js.Number (Js.split_dot a))
      (map Js.Number (Js.split_dot b)) n 0.
Proof.
  intros Ha Hb. unfold compareSemver.
  set (pa := map Js.Number (Js.split_dot a)).
  set (pb := map Js.Number (Js.split_dot b)).
  assert (La : length pa = length (Js.split_dot a)) by apply length_map.
  assert (Lb : length pb = length (Js.split_dot b)) by apply length_map.
  transitivity (compareSemver_loop pa pb
                  (Nat.max (length pa) (length pb)
                   + (n - Nat.max (length pa) (length pb))) 0).
  - symmetry. apply loop_extra; intros j Hj; apply or_zero_past; lia.
  - f_equal. lia.
Qed.

(** X3: [compareSemver] orders versions transitively, so the gate on
    [MIN_VERSION] is monotone: a version that compares at least as high as an
    accepted one is accepted too. *)
Theorem compareSemver_transitive :
  (forall a b c,
     compareSemver a b <= 0 -> compareSemver b c <= 0 ->
     compareSemver a c <= 0
     /\ (compareSemver a b < 0 \/ compareSemver b c < 0 ->
         compareSemver a c < 0))
  /\ (forall v w,
        0 <= compareSemver v MIN_VERSION -> 0 <= compareSemver w v ->
        0 <= compareSemver w MIN_VERSION).
Proof.
  assert (T : forall a b c,
             compareSemver a b <= 0 -> compareSemver b c <= 0 ->
             compareSemver a c <= 0
             /\ (compareSemver a b < 0 \/ compareSemver b c < 0 ->
                 compareSemver a c < 0)).
  { intros a b c.
    set (n := Nat.max (length (Js.split_dot a))
                (Nat.max (length (Js.split_dot b)) (length (Js.split_dot c)))).
    rewrite (compareSemver_upto a b n), (compareSemver_upto b c n),
      (compareSemver_upto a c n) by lia.
    apply loop_transitive. }
  split; [exact T|].
  intros v w Hv Hw.
  rewrite (compareSemver_swap v MIN_VERSION) in Hv.
  rewrite (compareSemver_swap w v) in Hw.
  rewrite (compareSemver_swap w MIN_VERSION).
  destruct (T MIN_VERSION v w) as [H _]; lia.
Qed.

Lemma compareSemver_transitive_witness :
  0 <= compareSemver "4.12.0" MIN_VERSION
  /\ 0 <= compareSemver "5.0" "4.12.0"
  /\ 0 <= compareSemver "5.0" MIN_VERSION.
Proof.
  assert (H1 : 0 <= compareSemver "4.12.0" MIN_VERSION) by (vm_compute; discriminate).
  assert (H2 : 0 <= compareSemver "5.0" "4.12.0") by (vm_compute; discriminate).
  split; [exact H1|]. split; [exact H2|].
  exact (proj2 compareSemver_transitive "4.12.0" "5.0" H1 H2).
Defined.

(** X4: a Pro build is validated exactly like the community build of the same
    version: whatever the site, reporting [v-pro] instead of [v] changes
    nothing in the outcome, for a [v] that does not itself end in [-pro]. *)
Theorem validateSiteVersion_pro_build
    (url : string -> string -> Js.exn + string) (ok_ : bool) (status_ code_ : Z)
    (msg_ v siteUrl : string) :
  Js.replace_pro_suffix v = v ->
  validateSiteVersion
    {| URL := url;
       fetch := fun _ => inr {| ok := ok_; status := status_;
                                json := inr {| code := code_;
                                               data := v ++ "-pro";
                                               msg := msg_ |} |} |} siteUrl
  = validateSiteVersion
      {| URL := url;
         fetch := fun _ => inr {| ok := ok_; status := status_;
                                  json := inr {| code := code_; data := v;
                                                 msg := msg_ |} |} |} siteUrl.
Proof.
  intros Hv. unfold validateSiteVersion. simpl.
  now rewrite replace_pro_suffix_strips, Hv.
Qed.

Lemma validateSiteVersion_pro_build_witness :
  validateSiteVersion
    {| URL := fun path base => inr (base ++ path);
       fetch := fun _ => inr {| ok := true; status := 200;
                                json := inr {| code := 0;
                                               data := "4.13.1" ++ "-pro";
                                               msg := "" |} |} |}
    "https://c.example"
  = validateSiteVersion
      {| URL := fun path base => inr (base ++ path);
         fetch := fun _ => inr {| ok := true; status := 200;
                                  json := inr {| code := 0; data := "4.13.1";
                                                 msg := "" |} |} |}
      "https://c.example".
Proof.
  apply (validateSiteVersion_pro_build (fun path base => inr (base ++ path))
           true 200 0 "" "4.13.1" "https://c.example").
  reflexivity.
Defined.

End VersionOrder.

(** ** The cached user agent *)

Section UserAgentCache.

Import Fetch.

(** X5: once [getUserAgent] has produced a user agent, every later call
    returns that same string from the cache, whatever [getVersion] would
    answer then (even a failure); a failed call caches nothing, so the next
    call asks again. *)
Theorem getUserAgent_cached :
  (forall g cache ua cache',
     getUserAgent g cache = (inr ua, cache') ->
     ua <> ""
     /\ forall g', getUserAgent g' cache' = (inr ua, cache'))
  /\ (forall g cache e cache',
        getUserAgent g cache = (inl e, cache') ->
        cache' = cache /\ g = inl e
        /\ forall version,
             getUserAgent (inr version) cache'
             = (inr ("cloudreve-desktop/" ++ version),
                Some ("cloudreve-desktop/" ++ version))).
Proof.
  split.
  - intros g cache ua cache'. unfold getUserAgent.
    destruct cache as [c|]; simpl.
    + destruct (String.eqb c "") eqn:E; simpl.
      * destruct g as [e|v]; [discriminate|]. intros [= <- <-].
        split; [discriminate|]. reflexivity.
      * intros [= <- <-]. split.
        { intros ->. discriminate. }
        intros g'. simpl. now rewrite E.
    + destruct g as [e|v]; [discriminate|]. intros [= <- <-].
      split; [discriminate|]. reflexivity.
  - intros g cache e cache'. unfold getUserAgent.
    destruct cache as [c|]; simpl.
    + destruct (String.eqb c "") eqn:E; simpl; [|discriminate].
      destruct g as [e0|v]; [|discriminate]. intros [= <- <-].
      repeat split. intros version. simpl. now rewrite E.
    + destruct g as [e0|v]; [|discriminate]. intros [= <- <-].
      repeat split.
Qed.

Lemma getUserAgent_cached_witness :
  getUserAgent (inl (Js.OtherValue "gone")) (Some "cloudreve-desktop/0.1.0")
  = (inr "cloudreve-desktop/0.1.0", Some "cloudreve-desktop/0.1.0").
Proof.
  exact (proj2 (proj1 getUserAgent_cached (inr "0.1.0") None
                  "cloudreve-desktop/0.1.0" (Some "cloudreve-desktop/0.1.0")
                  eq_refl) (inl (Js.OtherValue "gone"))).
Defined.

End UserAgentCache.

(** ** The site icon *)

Section SiteIcon.

Import Manifest.

Example match_sizes_examples :
  match_sizes "512x512" = ["512x512"]
  /\ match_sizes "64x64 32x32 24x24 16x16" = ["64x64"; "32x32"; "24x24"; "16x16"]
  /\ match_sizes "any" = []
  /\ match_sizes "" = []
  /\ match_sizes "1x2x3" = ["1x2"]
  /\ match_sizes "12xx5 7x" = []
  /\ match_sizes "a192x192b" = ["192x192"]
  /\ width_of "192x144" = Some (Js.Finite 192).
Proof. repeat split; vm_compute; reflexivity. Qed.

Lemma sizes_of_error icon e : sizes_of icon = inl e -> e = Json.type_error.
Proof.
  unfold sizes_of, Json.read.
  destruct icon as [|b|n|s|items|members]; cbn;
    try (intros [= <-]; reflexivity).
  destruct (Json.member "sizes" members) as [[|b|n|s|items|ms]|];
    try (intros [= <-]; reflexivity).
Qed.

(** One icon on which [.match] cannot be called stops the loop. *)
Lemma consider_icons_error icons_ icon e best :
  In icon icons_ -> sizes_of icon = inl e ->
  consider_icons icons_ best = inl Json.type_error.
Proof.
  revert best. induction icons_ as [|i icons_ IH]; intros best Hin He;
    [destruct Hin|].
  cbn [consider_icons]. unfold consider_icon.
  destruct (sizes_of i) as [e'|sizes] eqn:Hi.
  - now rewrite (sizes_of_error i e' Hi).
  - destruct Hin as [->|Hin]; [congruence|]. now apply IH.
Qed.

Lemma consider_icons_declared icons_ best :
  (forall icon, In icon icons_ -> exists sizes, sizes_of icon = inr sizes) ->
  consider_icons icons_ best
  = inr (fold_left (fun best d => consider_size (fst d) best (snd d))
           (declared icons_) best).
Proof.
  revert best. induction icons_ as [|i icons_ IH]; intros best Hall;
    [reflexivity|].
  cbn [consider_icons]. unfold consider_icon, declared. cbn [flat_map].
  destruct (Hall i (or_introl eq_refl)) as [sizes Hi]. rewrite Hi.
  rewrite fold_left_app, IH by (intros; apply Hall; now right).
  do 2 f_equal.
  generalize (match_sizes sizes). intros l. revert best.
  induction l as [|s l IHl]; intros best; [reflexivity|]. cbn. apply IHl.
Qed.

(** What holds of the best icon so far, after the sizes [seen]. *)
Lemma consider_sizes_invariant (l seen : list (Json.value * string)) st :
  (match fst st with
   | None => snd st = Js.zero
   | Some icon =>
       exists s, In (icon, s) seen /\ width_of s = Some (snd st)
                 /\ Js.lt Js.zero (snd st) = true
   end) ->
  (forall d w, In d seen -> width_of (snd d) = Some w -> Js.lt (snd st) w = false) ->
  let st' := fold_left (fun best d => consider_size (fst d) best (snd d)) l st in
  (match fst st' with
   | None => snd st' = Js.zero
   | Some icon =>
       exists s, In (icon, s) (seen ++ l) /\ width_of s = Some (snd st')
                 /\ Js.lt Js.zero (snd st') = true
   end)
  /\ (forall d w, In d (seen ++ l) -> width_of (snd d) = Some w ->
                  Js.lt (snd st') w = false).
Proof.
  revert seen st. induction l as [|[icon s] l IH]; intros seen st Hbest Hmax.
  - simpl. rewrite app_nil_r. auto.
  - cbn [fold_left fst snd].
    replace (seen ++ (icon, s) :: l)%list with ((seen ++ [(icon, s)]) ++ l)%list
      by (rewrite <- app_assoc; reflexivity).
    apply IH.
    + unfold consider_size. cbn [fst snd].
      destruct (width_of s) as [w|] eqn:Hw.
      * destruct (Js.lt (snd st) w) eqn:Hlt; cbn [fst snd].
        -- exists s. split; [apply in_or_app; right; now left|].
           split; [exact Hw|].
           destruct (fst st) as [b|].
           ++ destruct Hbest as (s0 & _ & _ & H0). eapply lt_trans; eauto.
           ++ now rewrite Hbest in Hlt.
        -- destruct (fst st); [|exact Hbest].
           destruct Hbest as (s0 & Hin & H1 & H2). exists s0.
           split; [apply in_or_app; now left|auto].
      * destruct (fst st); [|exact Hbest].
        destruct Hbest as (s0 & Hin & H1 & H2). exists s0.
        split; [apply in_or_app; now left|auto].
    + intros d w Hd Hdw. apply in_app_or in Hd.
      unfold consider_size. cbn [fst snd].
      destruct (width_of s) as [w0|] eqn:Hw.
      * destruct (Js.lt (snd st) w0) eqn:Hlt; cbn [fst snd].
        -- destruct Hd as [Hd|[<-|[]]].
           ++ specialize (Hmax d w Hd Hdw).
              destruct (Js.lt w0 w) eqn:E; [|reflexivity].
              rewrite (lt_trans _ _ _ Hlt E) in Hmax. discriminate.
           ++ cbn [snd] in Hdw. rewrite Hw in Hdw. injection Hdw as <-.
              apply lt_irrefl.
        -- destruct Hd as [Hd|[<-|[]]]; [now apply (Hmax d)|].
           cbn [snd] in Hdw. rewrite Hw in Hdw. now injection Hdw as <-.
      * destruct Hd as [Hd|[<-|[]]]; [now apply (Hmax d)|].
        cbn [snd] in Hdw. congruence.
Qed.

Lemma consider_icons_largest icons_ :
  (forall icon, In icon icons_ -> exists sizes, sizes_of icon = inr sizes) ->
  exists best,
    consider_icons icons_ (None, Js.zero) = inr best
    /\ (match fst best with
        | None => snd best = Js.zero
        | Some icon =>
            exists s, In (icon, s) (declared icons_)
                      /\ width_of s = Some (snd best)
                      /\ Js.lt Js.zero (snd best) = true
        end)
    /\ (forall d w, In d (declared icons_) -> width_of (snd d) = Some w ->
                    Js.lt (snd best) w = false).
Proof.
  intros Hall. eexists. split; [now apply consider_icons_declared|].
  apply (consider_sizes_invariant (declared icons_) [] (None, Js.zero)).
  - reflexivity.
  - intros d w [].
Qed.

(** X6: the manifest is whatever JSON the site sends.  When it is fetched
    and its [icons] are an array, one icon on which [sizes.match] cannot be
    called (no [sizes], or [sizes] that are not a string) makes
    [fetchSiteIcon] reject with a TypeError, whatever the other icons are.
    When every icon has a string as [sizes], [fetchSiteIcon] answers [null]
    exactly when no declared size has a width above 0; otherwise it answers
    with the URL of an icon one of whose declared widths is the largest of
    all the widths declared in the manifest (heights play no part, and 512
    is not preferred to a larger width). *)
Theorem fetchSiteIcon_largest_width env siteUrl manifestUrl response manifest
    icons_ :
  URL env (Some (Json.Str "/manifest.json")) siteUrl = inr manifestUrl ->
  fetch env manifestUrl = inr response ->
  ok response = true ->
  json response = inr manifest ->
  Json.read (Some manifest) "icons" = inr (Some (Json.Arr icons_)) ->
  (forall icon e, In icon icons_ -> sizes_of icon = inl e ->
                  fetchSiteIcon env siteUrl = inl Json.type_error)
  /\ ((forall icon, In icon icons_ -> exists sizes, sizes_of icon = inr sizes) ->
      (fetchSiteIcon env siteUrl = inr None
       /\ forall d w, In d (declared icons_) -> width_of (snd d) = Some w ->
                      Js.lt Js.zero w = false)
      \/ (exists icon s w,
            In (icon, s) (declared icons_) /\ width_of s = Some w
            /\ Js.lt Js.zero w = true
            /\ (forall d w', In d (declared icons_) ->
                             width_of (snd d) = Some w' ->
                             Js.lt w w' = false)
            /\ fetchSiteIcon env siteUrl = resolve_icon env siteUrl icon)).
Proof.
  intros Hurl Hfetch Hok Hjson Hicons.
  unfold fetchSiteIcon, largest_icon.
  rewrite Hurl, Hfetch, Hok, Hjson, Hicons.
  cbn [negb Json.truthy Json.read Json.iterate String.eqb Ascii.eqb Bool.eqb].
  split.
  - intros icon e Hin He.
    destruct icons_ as [|i0 rest] eqn:Eicons; [destruct Hin|].
    rewrite <- Eicons in *.
    assert (Hz : Json.is_zero
                   (Some (Json.Num (Js.Finite
                      (inject_Z (Z.of_nat (length icons_)))))) = false)
      by (rewrite Eicons; reflexivity).
    rewrite Hz. now rewrite (consider_icons_error icons_ icon e _ Hin He).
  - intros Hall.
    destruct icons_ as [|i0 rest] eqn:Eicons.
    { left. split; [reflexivity|]. intros d w []. }
    rewrite <- Eicons in *.
    assert (Hz : Json.is_zero
                   (Some (Json.Num (Js.Finite
                      (inject_Z (Z.of_nat (length icons_)))))) = false)
      by (rewrite Eicons; reflexivity).
    rewrite Hz.
    destruct (consider_icons_largest icons_ Hall)
      as ([bestIcon bestSize] & -> & Hbest & Hmax).
    cbn [fst snd] in Hbest, Hmax.
    destruct bestIcon as [icon|].
    + right. destruct Hbest as (s & Hin & Hw & Hpos).
      exists icon, s, bestSize. auto.
    + left. split; [reflexivity|]. intros d w Hd Hw.
      rewrite <- Hbest. now apply (Hmax d).
Qed.

Lemma fetchSiteIcon_largest_width_witness :
  fetchSiteIcon sample_site "https://c.example"
    = inr (Some "https://c.example/icons/1024.png")
  /\ fetchSiteIcon site_with_unsized_icon "https://c.example"
     = inl Json.type_error
  /\ ((fetchSiteIcon sample_site "https://c.example" = inr None
       /\ forall d w, In d (declared sample_icons) ->
                      width_of (snd d) = Some w -> Js.lt Js.zero w = false)
      \/ (exists icon s w,
            In (icon, s) (declared sample_icons)
            /\ width_of s = Some w /\ Js.lt Js.zero w = true
            /\ (forall d w', In d (declared sample_icons) ->
                             width_of (snd d) = Some w' -> Js.lt w w' = false)
            /\ fetchSiteIcon sample_site "https://c.example"
               = resolve_icon sample_site "https://c.example" icon)).
Proof.
  split; [vm_compute; reflexivity|]. split.
  - apply (proj1 (fetchSiteIcon_largest_width site_with_unsized_icon
                    "https://c.example" _ _ _ _
                    eq_refl eq_refl eq_refl eq_refl eq_refl)
             (Json.Obj [("src", Json.Str "/favicon.ico")]) Json.type_error).
    + apply in_or_app. right. left. reflexivity.
    + reflexivity.
  - apply (proj2 (fetchSiteIcon_largest_width sample_site "https://c.example"
                    _ _ _ _ eq_refl eq_refl eq_refl eq_refl eq_refl)).
    intros icon Hin.
    repeat (destruct Hin as [<-|Hin]; [eexists; reflexivity|]).
    destruct Hin.
Defined.

End SiteIcon.

(** ** The authorize URL and the submit handler of the add-drive page *)

Section AddDriveFacts.

Import JsString AddDrive.

Lemma nat_of_ascii_bound c : (nat_of_ascii c < 256)%nat.
Proof.
  destruct c as [[] [] [] [] [] [] [] []]; vm_compute; lia.
Qed.

Lemma hex_digit_safe n : (n < 16)%nat -> uri_safe (hex_digit n) = true.
Proof.
  intros H. do 16 (destruct n as [|n]; [reflexivity|]). lia.
Qed.

Lemma list_ascii_of_append (a b : string) :
  list_ascii_of_string (a ++ b)
  = (list_ascii_of_string a ++ list_ascii_of_string b)%list.
Proof. induction a as [|c a IH]; simpl; [reflexivity|now rewrite IH]. Qed.

Lemma percent_safe byte rest :
  (byte < 256)%nat ->
  forallb uri_safe (list_ascii_of_string rest) = true ->
  forallb uri_safe (list_ascii_of_string (percent byte rest)) = true.
Proof.
  intros Hb Hrest. unfold percent. cbn [list_ascii_of_string forallb].
  rewrite Hrest, !hex_digit_safe.
  - reflexivity.
  - apply Nat.mod_upper_bound. lia.
  - apply Nat.Div0.div_lt_upper_bound. lia.
Qed.

(** Only unreserved characters and [%] come out of [encodeURIComponent]. *)
Lemma encodeURIComponent_safe s :
  forallb uri_safe (list_ascii_of_string (encodeURIComponent s)) = true.
Proof.
  induction s as [|c s IH]; [reflexivity|].
  cbn [encodeURIComponent].
  pose proof (nat_of_ascii_bound c) as Hc.
  destruct (is_unreserved c) eqn:Hu.
  - cbn [list_ascii_of_string forallb]. unfold uri_safe at 1.
    now rewrite Hu, IH.
  - destruct (nat_of_ascii c <? 128)%nat eqn:Hlt.
    + apply percent_safe; [lia|exact IH].
    + apply percent_safe.
      * assert (nat_of_ascii c / 64 < 4)%nat
          by (apply Nat.Div0.div_lt_upper_bound; lia). lia.
      * apply percent_safe; [|exact IH].
        assert (nat_of_ascii c mod 64 < 64)%nat
          by (apply Nat.mod_upper_bound; lia). lia.
Qed.

Lemma encodeURIComponent_unreserved s :
  forallb is_unreserved (list_ascii_of_string s) = true ->
  encodeURIComponent s = s.
Proof.
  induction s as [|c s IH]; [reflexivity|].
  cbn [list_ascii_of_string forallb encodeURIComponent].
  intros H. apply andb_true_iff in H as [Hc Hs]. now rewrite Hc, IH.
Qed.

(** A character class that no URI-safe character belongs to finds nothing in
    an encoded string. *)
Lemma encoded_free (f : ascii -> bool) s :
  (forall c, uri_safe c = true -> f c = false) ->
  existsb f (list_ascii_of_string (encodeURIComponent s)) = false.
Proof.
  intros Hf. pose proof (encodeURIComponent_safe s) as H.
  induction (list_ascii_of_string (encodeURIComponent s)) as [|c l IH];
    [reflexivity|].
  simpl in *. apply andb_true_iff in H as [Hc Hl].
  now rewrite (Hf c Hc), IH.
Qed.

Lemma encode_pair_free (f : ascii -> bool) entry :
  (forall c, uri_safe c = true -> f c = false) -> f "="%char = false ->
  existsb f (list_ascii_of_string (encode_pair entry)) = false.
Proof.
  intros Hf Heq. unfold encode_pair.
  rewrite !list_ascii_of_append, !existsb_app, !encoded_free by exact Hf.
  simpl. now rewrite Heq.
Qed.

(** Splitting a joined list at the separator gives the list back, when no
    piece contains the separator. *)
Lemma split_join (f : ascii -> bool) c parts :
  f c = true -> parts <> [] ->
  (forall p, In p parts -> existsb f (list_ascii_of_string p) = false) ->
  split_by f (join (String c "") parts) = parts.
Proof.
  intros Hc. induction parts as [|p parts IH]; [congruence|].
  intros _ Hfree. destruct parts as [|q parts].
  - simpl. apply split_by_free. apply Hfree. now left.
  - change (join (String c "") (p :: q :: parts))
      with (p ++ String c (join (String c "") (q :: parts))).
    rewrite (split_by_at_separator f p c _ Hc).
    rewrite (split_by_free f p) by (apply Hfree; now left).
    rewrite IH; [reflexivity|discriminate|].
    intros r Hr. apply Hfree. now right.
Qed.

Lemma join_free (f : ascii -> bool) c parts :
  f c = false ->
  (forall p, In p parts -> existsb f (list_ascii_of_string p) = false) ->
  existsb f (list_ascii_of_string (join (String c "") parts)) = false.
Proof.
  intros Hc. induction parts as [|p parts IH]; intros Hall; [reflexivity|].
  destruct parts as [|q parts]; [apply Hall; now left|].
  change (join (String c "") (p :: q :: parts))
    with (p ++ String c (join (String c "") (q :: parts))).
  rewrite list_ascii_of_append, existsb_app.
  rewrite (Hall p) by now left.
  cbn [list_ascii_of_string existsb]. rewrite Hc.
  rewrite IH by (intros r Hr; apply Hall; now right). reflexivity.
Qed.

Lemma ampersand_not_safe c :
  uri_safe c = true -> Ascii.eqb c "&" = false.
Proof.
  intros H. destruct (Ascii.eqb c "&") eqn:E; [|reflexivity].
  apply Ascii.eqb_eq in E. subst c. discriminate.
Qed.

(** X7: whatever the code challenge, the query of the authorize URL is made
    of the six parameters in their order, one [name=value] piece each between
    the [&]: the challenge cannot add or hide a parameter.  The query holds
    only unreserved characters, [%], [=] and [&], so spaces are written
    [%20] and never [+]; a base64url challenge is passed as it is. *)
Theorem authorize_search_parameters codeChallenge :
  split_by (fun c => Ascii.eqb c "&") (authorize_search codeChallenge)
  = [ "response_type=code";
      "client_id=393a1839-f52e-498e-9972-e77cc2241eee";
      "scope=profile%20email%20openid%20offline_access%20UserInfo.Write%20Workflow.Write%20Files.Write%20Shares.Write";
      "redirect_uri=%2FdesktopCallback";
      "code_challenge=" ++ encodeURIComponent codeChallenge;
      "code_challenge_method=S256" ]
  /\ existsb (fun c => Ascii.eqb c " " || Ascii.eqb c "+" || Ascii.eqb c "#")
       (list_ascii_of_string (authorize_search codeChallenge)) = false
  /\ (forallb is_unreserved (list_ascii_of_string codeChallenge) = true ->
      encodeURIComponent codeChallenge = codeChallenge).
Proof.
  split; [|split].
  - unfold authorize_search. rewrite split_join.
    + reflexivity.
    + reflexivity.
    + discriminate.
    + intros p Hp. apply in_map_iff in Hp as (entry & <- & _).
      apply encode_pair_free; [apply ampersand_not_safe|reflexivity].
  - unfold authorize_search. apply join_free; [reflexivity|].
    intros p Hp. apply in_map_iff in Hp as (entry & <- & _).
    apply encode_pair_free; [|reflexivity].
    intros c Hc.
    destruct (Ascii.eqb c " " || Ascii.eqb c "+" || Ascii.eqb c "#") eqn:E;
      [|reflexivity].
    apply orb_true_iff in E as [E|E]; [apply orb_true_iff in E as [E|E]|];
      apply Ascii.eqb_eq in E; subst c; discriminate.
  - apply encodeURIComponent_unreserved.
Qed.

Lemma authorize_search_parameters_witness :
  encodeURIComponent "E9Melhoa2OwvFrEMTJguCHaoeK1t8URWbuGJSstw-cM"
  = "E9Melhoa2OwvFrEMTJguCHaoeK1t8URWbuGJSstw-cM".
Proof.
  apply (proj2 (proj2 (authorize_search_parameters
                         "E9Melhoa2OwvFrEMTJguCHaoeK1t8URWbuGJSstw-cM"))).
  reflexivity.
Defined.

End AddDriveFacts.

Section HandleSubmitFacts.

Import AddDrive.

Lemma caught_fields fx e st :
  loading (caught fx e st) = loading st
  /\ snackbarOpen (caught fx e st) = true
  /\ authorizeUrl (caught fx e st) = authorizeUrl st
  /\ pkceSessionRef (caught fx e st) = pkceSessionRef st
  /\ error (caught fx e st) = t fx (fst (error_message e)) (snd (error_message e)).
Proof. repeat split. Qed.

Lemma error_message_key e :
  In (fst (error_message e))
    [ "addDrive.errors.connectionFailed"; "addDrive.errors.httpError";
      "addDrive.errors.apiError"; "addDrive.errors.versionTooLow" ].
Proof.
  destruct e as [[[] p]|x]; simpl; tauto.
Qed.

(** X8: [handleSubmit] always ends with [loading] off.  When the site is not
    validated, whatever the reason, it stores no PKCE session and no
    authorize URL, and opens the snackbar with one of the four
    [addDrive.errors] messages.  A PKCE session it stores always carries the
    trimmed site URL and a site version that passed the [MIN_VERSION] check.
    And the snackbar stays closed only if the browser was opened on the
    authorize URL that the page then shows. *)
Theorem handleSubmit_outcomes fx st :
  loading (handleSubmit fx st) = false
  /\ (forall e,
        SiteValidation.validateSiteVersion (site fx) (siteUrl_input st)
          = SiteValidation.Rejected e ->
        pkceSessionRef (handleSubmit fx st) = pkceSessionRef st
        /\ authorizeUrl (handleSubmit fx st) = authorizeUrl st
        /\ snackbarOpen (handleSubmit fx st) = true
        /\ exists key params,
             error (handleSubmit fx st) = t fx key params
             /\ In key [ "addDrive.errors.connectionFailed";
                         "addDrive.errors.httpError";
                         "addDrive.errors.apiError";
                         "addDrive.errors.versionTooLow" ])
  /\ (pkceSessionRef (handleSubmit fx st) = pkceSessionRef st
      \/ exists verifier challenge version,
           generatePKCEPair fx = inr (verifier, challenge)
           /\ SiteValidation.validateSiteVersion (site fx) (siteUrl_input st)
              = SiteValidation.Resolved version
           /\ 0 <= SiteValidation.compareSemver version SiteValidation.MIN_VERSION
           /\ pkceSessionRef (handleSubmit fx st)
              = Some {| codeVerifier := verifier; codeChallenge := challenge;
                        siteUrl := JsString.trim (siteUrl_input st);
                        siteVersion := version;
                        siteIcon := currentIconUrl st |})
  /\ (snackbarOpen (handleSubmit fx st) = false ->
      exists challenge authUrl,
        buildAuthorizeUrl (url_api fx) (JsString.trim (siteUrl_input st))
          challenge = inr authUrl
        /\ openUrl fx authUrl = inr tt
        /\ authorizeUrl (handleSubmit fx st) = Some authUrl
        /\ exists session, pkceSessionRef (handleSubmit fx st) = Some session
                           /\ codeChallenge session = challenge).
Proof.
  unfold handleSubmit, submit_attempt.
  cbn [siteUrl_input set_snackbarOpen set_loading currentIconUrl].
  destruct (SiteValidation.validateSiteVersion (site fx) (siteUrl_input st))
    as [version|e] eqn:Hv.
  2:{ split; [reflexivity|]. split.
      - intros e' [= <-]. cbn. repeat split.
        exists (fst (error_message e)), (snd (error_message e)).
        split; [reflexivity|apply error_message_key].
      - split; [left; reflexivity|]. cbn. discriminate. }
  assert (Hmin : 0 <= SiteValidation.compareSemver version SiteValidation.MIN_VERSION).
  { apply validateSiteVersion_resolves_iff in Hv
      as (u & r & p & _ & _ & _ & _ & _ & _ & H). exact H. }
  split.
  { destruct (generatePKCEPair fx) as [x|[verifier challenge]]; [reflexivity|].
    destruct (buildAuthorizeUrl _ _ _) as [x|authUrl]; [reflexivity|].
    destruct (openUrl fx authUrl); reflexivity. }
  split; [intros e; discriminate|].
  destruct (generatePKCEPair fx) as [x|[verifier challenge]] eqn:Hg.
  { split; [left; reflexivity|]. cbn. discriminate. }
  split.
  { right. exists verifier, challenge, version.
    repeat split; try assumption.
    destruct (buildAuthorizeUrl _ _ _) as [x|authUrl]; [reflexivity|].
    destruct (openUrl fx authUrl); reflexivity. }
  destruct (buildAuthorizeUrl _ _ _) as [x|authUrl] eqn:Hb; [cbn; discriminate|].
  destruct (openUrl fx authUrl) as [x|[]] eqn:Ho; [cbn; discriminate|].
  intros _. exists challenge, authUrl. repeat split; try assumption.
  eexists. split; reflexivity.
Qed.

(** On a site whose ping answers with a page that is not JSON, the error of
    [response.json()] is shown as a connection failure. *)
Lemma handleSubmit_outcomes_witness :
  SiteValidation.validateSiteVersion
    (site (sample_effects SiteValidation.html_site))
    (siteUrl_input (initial_state " https://example.com "))
  = SiteValidation.Rejected
      (SiteValidation.Exception (Js.ErrorObject "Unexpected token '<'"))
  /\ error (handleSubmit (sample_effects SiteValidation.html_site)
              (initial_state " https://example.com "))
     = "addDrive.errors.connectionFailed"
  /\ pkceSessionRef (handleSubmit (sample_effects SiteValidation.html_site)
                       (initial_state " https://example.com "))
     = None
  /\ snackbarOpen (handleSubmit (sample_effects SiteValidation.html_site)
                     (initial_state " https://example.com "))
     = true.
Proof.
  assert (Hv : SiteValidation.validateSiteVersion
                 (site (sample_effects SiteValidation.html_site))
                 (siteUrl_input (initial_state " https://example.com "))
               = SiteValidation.Rejected
                   (SiteValidation.Exception
                      (Js.ErrorObject "Unexpected token '<'")))
    by reflexivity.
  destruct (proj1 (proj2 (handleSubmit_outcomes
                            (sample_effects SiteValidation.html_site)
                            (initial_state " https://example.com "))) _ Hv)
    as (Hp & _ & Hs & _).
  split; [exact Hv|]. split; [reflexivity|]. split; [exact Hp|exact Hs].
Defined.

End HandleSubmitFacts.

(** ** The drive list *)

Section DrivesPageFacts.

Import DrivesPage.

Lemma direction_promise_id (b : Backend) d : fst (direction_promise b d) = id d.
Proof. unfold direction_promise. now destruct (get_sync_direction b (id d)). Qed.

Lemma direction_promise_direction (b : Backend) d :
  snd (direction_promise b d)
  = match get_sync_direction b (id d) with
    | inr direction => direction
    | inl _ => "two_way"
    end.
Proof. unfold direction_promise. now destruct (get_sync_direction b (id d)). Qed.

Lemma assign_other (m : gmap string string) r k :
  fst r <> k -> assign m r !! k = m !! k.
Proof.
  intros Hne. unfold assign.
  destruct (String.eqb (fst r) "__proto__"); [reflexivity|].
  now rewrite lookup_insert_ne.
Qed.

Lemma assign_proto (m : gmap string string) r :
  assign m r !! "__proto__" = m !! "__proto__".
Proof.
  unfold assign. destruct (String.eqb (fst r) "__proto__") eqn:E; [reflexivity|].
  apply String.eqb_neq in E. now rewrite lookup_insert_ne.
Qed.

Lemma collect_other (b : Backend) (result : list DriveInfoResponse)
    (m : gmap string string) k :
  ~ In k (map id result) ->
  fold_left assign (map (direction_promise b) result) m !! k = m !! k.
Proof.
  revert m. induction result as [|d result IH]; intros m Hk; [reflexivity|].
  cbn [map fold_left]. rewrite IH by (intros ?; apply Hk; now right).
  apply assign_other. rewrite direction_promise_id.
  intros ?; apply Hk; now left.
Qed.

Lemma collect_proto (b : Backend) (result : list DriveInfoResponse)
    (m : gmap string string) :
  fold_left assign (map (direction_promise b) result) m !! "__proto__"
  = m !! "__proto__".
Proof.
  revert m. induction result as [|d result IH]; intros m; [reflexivity|].
  cbn [map fold_left]. rewrite IH. apply assign_proto.
Qed.

Lemma collect_listed (b : Backend) (result : list DriveInfoResponse)
    (m : gmap string string) k :
  In k (map id result) -> k <> "__proto__" ->
  fold_left assign (map (direction_promise b) result) m !! k
  = Some (match get_sync_direction b k with
          | inr direction => direction
          | inl _ => "two_way"
          end).
Proof.
  revert m. induction result as [|d result IH]; intros m Hk Hp; [destruct Hk|].
  cbn [map fold_left].
  destruct (in_dec string_dec k (map id result)) as [Hin|Hnin].
  - now apply IH.
  - rewrite collect_other by exact Hnin.
    destruct Hk as [<-|Hk]; [|contradiction].
    unfold assign. rewrite direction_promise_id.
    destruct (String.eqb (id d) "__proto__") eqn:E;
      [apply String.eqb_eq in E; contradiction|].
    now rewrite lookup_insert_eq, direction_promise_direction.
Qed.

(** X9: a call of [fetchDrives] while another is running changes nothing.
    Otherwise it ends with [loading] and the fetching mark off; when the list
    of drives cannot be read, the drives and their directions stay as they
    were; when it can, the page shows that list and exactly one direction
    per listed drive whose id is not [__proto__]: the one the backend
    reports, or ["two_way"] (switch off) where reading it failed.  For a
    drive with the id [__proto__] nothing is kept, and its switch is off.
    Directions of drives no longer listed are dropped. *)
Theorem fetchDrives_directions b st :
  (isFetchingRef st = true -> fetchDrives b st = st)
  /\ (isFetchingRef st = false ->
      loading (fetchDrives b st) = false
      /\ isFetchingRef (fetchDrives b st) = false
      /\ (forall e, get_drives_info b = inl e ->
            drives (fetchDrives b st) = drives st
            /\ syncDirections (fetchDrives b st) = syncDirections st)
      /\ (forall result, get_drives_info b = inr result ->
            drives (fetchDrives b st) = result
            /\ (forall d, In d result -> id d <> "__proto__" ->
                  syncDirections (fetchDrives b st) !! id d
                  = Some (match get_sync_direction b (id d) with
                          | inr direction => direction
                          | inl _ => "two_way"
                          end))
            /\ (syncDirections (fetchDrives b st) !! "__proto__" = None
                /\ DrivesSection.switch_checked
                     (syncDirections (fetchDrives b st)) "__proto__" = false)
            /\ (forall d e, In d result ->
                  get_sync_direction b (id d) = inl e ->
                  DrivesSection.switch_checked
                    (syncDirections (fetchDrives b st)) (id d) = false)
            /\ (forall k, ~ In k (map id result) ->
                  syncDirections (fetchDrives b st) !! k = None))).
Proof.
  split.
  { intros H. unfold fetchDrives. now rewrite H. }
  intros H. unfold fetchDrives. rewrite H.
  destruct (get_drives_info b) as [e|result]; cbn [loading isFetchingRef drives syncDirections].
  { repeat split; intros; discriminate. }
  split; [reflexivity|]. split; [reflexivity|].
  split; [intros; discriminate|].
  intros r [= <-].
  assert (Hd : forall d, In d result -> id d <> "__proto__" ->
             collect (map (direction_promise b) result) !! id d
             = Some (match get_sync_direction b (id d) with
                     | inr direction => direction
                     | inl _ => "two_way"
                     end)).
  { intros d Hd Hp. unfold collect. apply collect_listed; [|exact Hp].
    apply in_map_iff. eauto. }
  assert (Hproto : collect (map (direction_promise b) result) !! "__proto__"
                   = None).
  { unfold collect. now rewrite collect_proto. }
  split; [reflexivity|]. split; [exact Hd|]. split; [|split].
  - split; [exact Hproto|].
    unfold DrivesSection.switch_checked. now rewrite Hproto.
  - intros d e Hin He. unfold DrivesSection.switch_checked.
    destruct (string_dec (id d) "__proto__") as [Hp|Hp].
    + rewrite Hp, Hproto. reflexivity.
    + rewrite (Hd d Hin Hp), He. reflexivity.
  - intros k Hk. unfold collect. now rewrite collect_other.
Qed.

Lemma fetchDrives_directions_witness :
  syncDirections (fetchDrives sample_backend initial_state) !! "d1"
    = Some "one_way_upload"
  /\ syncDirections (fetchDrives sample_backend initial_state) !! "d2"
     = Some "two_way"
  /\ loading (fetchDrives sample_backend initial_state) = false.
Proof.
  destruct (proj2 (fetchDrives_directions sample_backend initial_state) eq_refl)
    as (Hl & _ & _ & Hok).
  destruct (Hok _ eq_refl) as (_ & Hd & _).
  split; [|split; [|exact Hl]].
  - apply (Hd (sample_drive "d1")); [simpl; tauto|discriminate].
  - apply (Hd (sample_drive "d2")); [simpl; tauto|discriminate].
Defined.

(** X10: after [fetchDrives] has listed a drive with a reported direction, a
    change of its direction that the backend refuses leaves the directions
    of the page exactly as they were fetched, for a drive whose id is not
    [__proto__] (for that id [fetchDrives] keeps no direction to restore). *)
Theorem refused_change_after_fetchDrives b st result d checked e direction :
  isFetchingRef st = false ->
  get_drives_info b = inr result ->
  In d result ->
  id d <> "__proto__" ->
  get_sync_direction b (id d) = inr direction ->
  direction <> "" ->
  fst (DrivesSection.handleSyncDirectionChange
         (syncDirections (fetchDrives b st)) (id d) checked (inl e)
         (syncDirections (fetchDrives b st)))
  = syncDirections (fetchDrives b st).
Proof.
  intros Hf Hinfo Hin Hp Hdir Hne.
  apply (handleSyncDirectionChange_failure_restores_map _ _ _ _ direction);
    [|exact Hne].
  unfold fetchDrives. rewrite Hf, Hinfo. cbn [syncDirections]. unfold collect.
  rewrite (collect_listed b result ∅ (id d))
    by (try exact Hp; apply in_map_iff; eauto).
  now rewrite Hdir.
Qed.

Lemma refused_change_after_fetchDrives_witness :
  fst (DrivesSection.handleSyncDirectionChange
         (syncDirections (fetchDrives sample_backend initial_state)) "d1" false
         (inl (Js.OtherValue "offline"))
         (syncDirections (fetchDrives sample_backend initial_state)))
  = syncDirections (fetchDrives sample_backend initial_state).
Proof.
  apply (refused_change_after_fetchDrives sample_backend initial_state
           [sample_drive "d1"; sample_drive "d2"] (sample_drive "d1") false
           (Js.OtherValue "offline") "one_way_upload").
  - reflexivity.
  - reflexivity.
  - simpl. tauto.
  - discriminate.
  - reflexivity.
  - discriminate.
Defined.

End DrivesPageFacts.

(** ** File icons *)

Section FileIconFacts.

Import FileIcon.

Lemma split_dot_split_by s :
  Js.split_dot s = JsString.split_by (fun c => Ascii.eqb c ".") s.
Proof.
  induction s as [|c s IH]; [reflexivity|].
  cbn [Js.split_dot JsString.split_by]. now rewrite IH.
Qed.

Lemma toLowerCase_not_empty s : s <> "" -> JsString.toLowerCase s <> "".
Proof. destruct s; [congruence|discriminate]. Qed.

Example toString_examples :
  map (fun s => NumberToString.toString (Js.Number s))
    [ "24"; "-0"; "1e21"; "1e20"; "1152921504606846976"; "9007199254740993";
      "0.1"; "1e-7"; "0.0000015"; "-42.75"; "5e-324";
      "1.7976931348623157e308"; "1e23"; "1e400"; "size" ]
  = [ "24"; "0"; "1e+21"; "100000000000000000000"; "1152921504606847000";
      "9007199254740992"; "0.1"; "1e-7"; "0.0000015"; "-42.75"; "5e-324";
      "1.7976931348623157e+308"; "1e+23"; "Infinity"; "NaN" ].
Proof. vm_compute. reflexivity. Qed.

Lemma toString_pixels_checked :
  forallb (fun n => String.eqb
                      (NumberToString.toString (Js.Finite (inject_Z (Z.of_nat n))))
                      (pretty (Z.of_nat n)))
    (seq 0 4097) = true.
Proof. vm_compute. reflexivity. Qed.

(** X11: the cache key of an icon is the extension of the path in lower case
    and the size as a number is written: the folder, the file name and the
    case of the extension do not matter; a path that ends in a dot has the
    key of an unknown type.  A size in whole pixels, up to 4096, is written
    with its decimal digits. *)
Theorem cacheKey_by_extension :
  (forall base ext size,
     existsb (fun c => Ascii.eqb c ".") (list_ascii_of_string ext) = false ->
     ext <> "" ->
     cacheKey (base ++ String "." ext) size
     = JsString.toLowerCase ext ++ "_" ++ NumberToString.toString size)
  /\ (forall base size,
        cacheKey (base ++ String "." "") size
        = "unknown_" ++ NumberToString.toString size)
  /\ (forall base base' ext ext' size,
        existsb (fun c => Ascii.eqb c ".") (list_ascii_of_string ext) = false ->
        existsb (fun c => Ascii.eqb c ".") (list_ascii_of_string ext') = false ->
        JsString.toLowerCase ext = JsString.toLowerCase ext' ->
        cacheKey (base ++ String "." ext) size
        = cacheKey (base' ++ String "." ext') size)
  /\ (forall pixels,
        0 <= pixels <= 4096 ->
        NumberToString.toString (Js.Finite (inject_Z pixels)) = pretty pixels).
Proof.
  assert (K : forall base ext size,
             existsb (fun c => Ascii.eqb c ".") (list_ascii_of_string ext) = false ->
             cacheKey (base ++ String "." ext) size
             = Js.string_or (JsString.toLowerCase ext) "unknown"
               ++ "_" ++ NumberToString.toString size).
  { intros base ext size Hext. unfold cacheKey.
    rewrite split_dot_split_by.
    rewrite (last_split_after_separator _ base "."%char ext eq_refl).
    now rewrite (split_by_free _ _ Hext). }
  split; [|split; [|split]].
  - intros base ext size Hext Hne. rewrite (K base ext size Hext).
    unfold Js.string_or.
    destruct (String.eqb (JsString.toLowerCase ext) "") eqn:E; [|reflexivity].
    apply String.eqb_eq in E. now apply toLowerCase_not_empty in E.
  - intros base size. now rewrite (K base "" size eq_refl).
  - intros base base' ext ext' size Hext Hext' Heq.
    now rewrite (K base ext size Hext), (K base' ext' size Hext'), Heq.
  - intros pixels Hp.
    pose proof (proj1 (forallb_forall _ _) toString_pixels_checked
                  (Z.to_nat pixels)) as H.
    cbv beta in H. rewrite Z2Nat.id in H by lia. apply String.eqb_eq, H.
    apply in_seq. lia.
Qed.

Lemma cacheKey_by_extension_witness :
  cacheKey ("C:\Users\me\Cloud\Photo" ++ String "." "JPG") (Js.Finite 28)
  = cacheKey ("/home/me/scan" ++ String "." "jpg") (Js.Finite 28)
  /\ NumberToString.toString (Js.Finite (inject_Z 28)) = pretty 28.
Proof.
  split.
  - apply (proj1 (proj2 (proj2 cacheKey_by_extension))); reflexivity.
  - apply (proj2 (proj2 (proj2 cacheKey_by_extension))). lia.
Defined.

(** X12: the icon cache never comes to hold an empty data URL: if every
    cached icon is a non-empty URL before [fetchIcon], so is every cached icon
    after it, whatever the backend and the canvas answer. *)
Theorem fetchIcon_keeps_cache_filled fx path size
    (iconCache : gmap string string) c :
  (forall k url, iconCache !! k = Some url -> url <> "") ->
  forall k url, snd (fst (fetchIcon fx path size iconCache c)) !! k = Some url ->
                url <> "".
Proof.
  intros Hinv k url. unfold fetchIcon.
  destruct (cached iconCache (cacheKey path size)); [apply Hinv|].
  destruct (get_file_icon fx path) as [e|response]; [apply Hinv|].
  destruct (negb (mounted fx)); [apply Hinv|].
  destruct (rgbaToDataUrl fx response) as [e|dataUrl]; [apply Hinv|].
  destruct (String.eqb dataUrl "") eqn:E; [apply Hinv|].
  cbn [fst snd]. destruct (decide (cacheKey path size = k)) as [<-|Hne].
  - rewrite lookup_insert_eq. intros [= <-]. intros ->. discriminate.
  - rewrite lookup_insert_ne by exact Hne. apply Hinv.
Qed.

Lemma fetchIcon_keeps_cache_filled_witness :
  snd (fst (fetchIcon sample_effects ("report" ++ String "." "PDF") (Js.Finite 28) ∅
              unloaded))
    !! cacheKey ("report" ++ String "." "PDF") (Js.Finite 28)
  = Some "data:image/png;base64,iVBORw0KGgo="
  /\ "data:image/png;base64,iVBORw0KGgo=" <> "".
Proof.
  assert (H : snd (fst (fetchIcon sample_effects
                          ("report" ++ String "." "PDF") (Js.Finite 28) ∅ unloaded))
              !! cacheKey ("report" ++ String "." "PDF") (Js.Finite 28)
              = Some "data:image/png;base64,iVBORw0KGgo=")
    by apply lookup_insert_eq.
  split; [exact H|].
  apply (fetchIcon_keeps_cache_filled sample_effects
           ("report" ++ String "." "PDF") (Js.Finite 28) ∅ unloaded)
    with (k := cacheKey ("report" ++ String "." "PDF") (Js.Finite 28));
    [|exact H].
  intros k url E. rewrite lookup_empty in E. discriminate E.
Defined.

Lemma cached_Some (iconCache : gmap string string) key url :
  cached iconCache key = Some url <-> iconCache !! key = Some url /\ url <> "".
Proof.
  unfold cached. destruct (iconCache !! key) as [u|]; cbn [mbind option_bind].
  - destruct (String.eqb u "") eqn:E.
    + apply String.eqb_eq in E. subst u. split; [discriminate|].
      intros [[= <-] H]. congruence.
    + apply String.eqb_neq in E. split.
      * intros [= <-]. auto.
      * intros [[= <-] _]. reflexivity.
  - split; [discriminate|]. intros [H _]. discriminate.
Qed.

(** X13: an icon found in the cache is shown without asking the backend and
    without touching the cache; and once the backend has delivered an icon
    for a path, a later [fetchIcon] for any path with the same cache key (the
    same kind of file at the same size) is served from the cache, whatever
    the backend would answer then. *)
Theorem fetchIcon_served_from_cache :
  (forall fx path size (iconCache : gmap string string) c url,
     iconCache !! cacheKey path size = Some url -> url <> "" ->
     fetchIcon fx path size iconCache c
     = ({| iconUrl := Some url; loading := false; error := error c |},
        iconCache, []))
  /\ (forall fx path size (iconCache : gmap string string) c response dataUrl,
        mounted fx = true ->
        get_file_icon fx path = inr response ->
        rgbaToDataUrl fx response = inr dataUrl ->
        dataUrl <> "" ->
        forall fx' path' c',
          cacheKey path' size = cacheKey path size ->
          exists url,
            fetchIcon fx' path' size
              (snd (fst (fetchIcon fx path size iconCache c))) c'
            = ({| iconUrl := Some url; loading := false; error := error c' |},
               snd (fst (fetchIcon fx path size iconCache c)), [])).
Proof.
  assert (Hit : forall fx path size (iconCache : gmap string string) c url,
             iconCache !! cacheKey path size = Some url -> url <> "" ->
             fetchIcon fx path size iconCache c
             = ({| iconUrl := Some url; loading := false; error := error c |},
                iconCache, [])).
  { intros fx path size iconCache c url Hk Hne. unfold fetchIcon.
    now rewrite (proj2 (cached_Some iconCache _ url) (conj Hk Hne)). }
  split; [exact Hit|].
  intros fx path size iconCache c response dataUrl Hm Hget Hrgba Hne
    fx' path' c' Hkey.
  unfold fetchIcon at 2 3.
  destruct (cached iconCache (cacheKey path size)) as [url|] eqn:Hc.
  - apply cached_Some in Hc as [Hk Hu]. cbn [fst snd].
    exists url. apply Hit; [now rewrite Hkey|exact Hu].
  - rewrite Hget, Hm, Hrgba. cbn [negb].
    destruct (String.eqb dataUrl "") eqn:E;
      [apply String.eqb_eq in E; congruence|].
    cbn [fst snd]. exists dataUrl.
    apply Hit; [|exact Hne]. rewrite Hkey. apply lookup_insert_eq.
Qed.

Lemma fetchIcon_served_from_cache_witness :
  exists url,
    fetchIcon
      {| get_file_icon := fun _ => inl (Js.OtherValue "backend stopped");
         rgbaToDataUrl := fun _ => inr ""; mounted := true |}
      ("/home/me/scan" ++ String "." "jpg") (Js.Finite 28)
      (snd (fst (fetchIcon sample_effects
                   ("C:\Users\me\Cloud\Photo" ++ String "." "JPG") (Js.Finite 28) ∅
                   unloaded)))
      unloaded
    = ({| iconUrl := Some url; loading := false; error := false |},
       snd (fst (fetchIcon sample_effects
                   ("C:\Users\me\Cloud\Photo" ++ String "." "JPG") (Js.Finite 28) ∅
                   unloaded)),
       []).
Proof.
  apply (proj2 fetchIcon_served_from_cache sample_effects
           ("C:\Users\me\Cloud\Photo" ++ String "." "JPG") (Js.Finite 28) ∅ unloaded
           {| data := "AAAA"; width := 1; height := 1 |}
           "data:image/png;base64,iVBORw0KGgo=");
    try reflexivity; discriminate.
Defined.

End FileIconFacts.

(** ** The primary key of the upload sessions *)

Section UploadSessionKey.

Import Sql Inventory.

Lemma column_values_app c (rs1 rs2 : list row) :
  column_values c (rs1 ++ rs2)%list
  = (column_values c rs1 ++ column_values c rs2)%list.
Proof. unfold column_values. now rewrite map_app, List.filter_app. Qed.

Lemma stored_id s (r : row) :
  get (stored_row upload_sessions s r) "id"
  = default Null (r !! "id").
Proof.
  unfold get, stored_row, upload_sessions.
  cbn [tbl_columns]. rewrite fmap_cons, list_to_map_cons, lookup_insert_eq.
  unfold stored_value. cbn [col_name col_autoincrement col_default default].
  destruct (r !! "id") as [v|]; [|reflexivity].
  now rewrite andb_false_r.
Qed.

Lemma id_column :
  In {| col_name := "id"; col_affinity := TEXT; col_not_null := true;
        col_primary_key := true; col_autoincrement := false;
        col_unique := false; col_default := None |}
     (tbl_columns upload_sessions).
Proof. left. reflexivity. Qed.

Lemma insert_refused_not_null t (r : row) s :
  not_null_ok t (stored_row t s r) = false -> insert t r s = None.
Proof.
  intros H. unfold insert, constraints_ok.
  rewrite forallb_app. cbn [forallb]. rewrite H.
  now rewrite andb_false_r, !andb_false_l, andb_false_r.
Qed.

Lemma insert_refused_duplicate t c (r r0 : row) s :
  In c (tbl_columns t) -> must_be_unique c = true ->
  In r0 (rows s) ->
  get (stored_row t s r) (col_name c) = get r0 (col_name c) ->
  get r0 (col_name c) <> Null ->
  insert t r s = None.
Proof.
  intros Hc Hu Hr0 Heq Hne. unfold insert.
  destruct (constraints_ok t (rows s ++ [stored_row t s r])%list) eqn:E;
    [|now rewrite andb_false_r].
  exfalso. unfold constraints_ok in E. apply andb_true_iff in E as [_ E].
  pose proof (proj1 (unique_ok_spec _ _) E c Hc Hu) as Hnd.
  rewrite column_values_app in Hnd. apply NoDup_app in Hnd as (_ & Hdisj & _).
  apply (Hdisj (get r0 (col_name c))).
  - apply list_elem_of_In in Hr0. apply list_elem_of_lookup in Hr0 as [j Hj].
    now apply (column_values_elem _ _ j).
  - rewrite column_values_cons, Heq.
    destruct (get r0 (col_name c)); [congruence|left|left].
Qed.

(** X14: [id] is the primary key of [upload_sessions]: in every state of the
    table two rows with the same id are the same row; an [INSERT] that
    repeats the id of a stored session is refused, and so is one that gives
    no id (the key is TEXT, so nothing is generated for it). *)
Theorem upload_sessions_id_primary_key :
  (forall s i j (r1 r2 : row),
     reachable upload_sessions s ->
     rows s !! i = Some r1 -> rows s !! j = Some r2 ->
     get r1 "id" = get r2 "id" -> i = j)
  /\ (forall s (r r0 : row),
        reachable upload_sessions s -> In r0 (rows s) ->
        r !! "id" = Some (get r0 "id") ->
        insert upload_sessions r s = None)
  /\ (forall s (r : row),
        default Null (r !! "id") = Null ->
        insert upload_sessions r s = None).
Proof.
  split; [|split].
  - intros s i j r1 r2 Hs Hi Hj Heq.
    exact (reachable_unique upload_sessions s _ i j r1 r2 Hs id_column
             eq_refl eq_refl Hi Hj Heq).
  - intros s r r0 Hs Hr0 Hid.
    apply (insert_refused_duplicate upload_sessions _ r r0 s id_column eq_refl
             Hr0).
    + cbn [col_name]. now rewrite stored_id, Hid.
    + exact (reachable_not_null upload_sessions s _ r0 Hs id_column eq_refl Hr0).
  - intros s r Hid. apply insert_refused_not_null.
    unfold not_null_ok, upload_sessions. cbn [tbl_columns forallb].
    cbn [col_name col_not_null]. fold upload_sessions.
    now rewrite stored_id, Hid.
Qed.

Lemma upload_sessions_id_primary_key_witness :
  insert upload_sessions (sample_session "s1" "/b.bin" Null 200)
    (one_session Null) = None
  /\ insert upload_sessions (base.delete "id" (sample_session "s2" "/b.bin" Null 200))
       (one_session Null) = None.
Proof.
  split.
  - apply (proj1 (proj2 upload_sessions_id_primary_key) (one_session Null) _
             (stored_row upload_sessions empty
                (sample_session "s1" "/a.bin" Null 100))).
    + apply one_session_reachable.
    + apply one_session_row.
    + vm_compute. reflexivity.
  - apply (proj2 (proj2 upload_sessions_id_primary_key)).
    vm_compute. reflexivity.
Defined.

End UploadSessionKey.
